(** * Ballistics: a shallow embedding of [main.c] and [SumCode.c]

    The repository simulates the flight of a launched ball.  [main.c] holds
    the global simulation state, the vector helpers and the per-step update
    functions; [SumCode.c] holds the shot-force profile [calculateShotForce].

    The C code computes on [double] (and, in [scalarMultiply], on a [float]
    argument).  The arithmetic of [main.c] only needs the four operations,
    negation and [sqrt], so it is embedded once, over an interface
    [DoubleOps], and read in two ways:

    - over [R], the idealised reading: every operation is exact and the
      narrowing to [float] is the identity.  It is meaningful wherever the
      C program neither divides by zero nor overflows;
    - over the primitive binary64 numbers, the executable reading: IEEE 754
      round-to-nearest arithmetic, infinities and NaN included, and the
      narrowing rounds to binary32.

    [SumCode.c] calls [erf], [exp] and [pow] of the C library, which have no
    binary64 counterpart here; its values are studied over [R].  Its control
    flow is also embedded over any arithmetic ([SumCodeAny]), where the
    library functions and the comparison are operations of an interface: what
    is proved there holds of the rounded computation as well.

    [angleToVector2D] calls [cos] and [sin] and is embedded over [R] only.
    Left out: [printVector] and the two [main] functions (output and unused
    locals). *)

From Stdlib Require Uint63.
From Stdlib Require Import PrimFloat FloatOps SpecFloat FloatAxioms.
From Stdlib Require Import ZArith QArith Reals Qreals Lra.

Set Implicit Arguments.

(** ** The arithmetic interface *)

Module Arith.

Class DoubleOps (T : Type) : Type := {
  d_lit : Q -> T;          (* a decimal literal of the source *)
  d_opp : T -> T;
  d_add : T -> T -> T;
  d_sub : T -> T -> T;
  d_mul : T -> T -> T;
  d_div : T -> T -> T;
  d_sqrt : T -> T;
  d_to_float : T -> T      (* passing a double where a float is expected *)
}.

Declare Scope dbl_scope.
Delimit Scope dbl_scope with D.
Notation "- a" := (d_opp a) : dbl_scope.
Notation "a + b" := (d_add a b) : dbl_scope.
Notation "a - b" := (d_sub a b) : dbl_scope.
Notation "a * b" := (d_mul a b) : dbl_scope.
Notation "a / b" := (d_div a b) : dbl_scope.

(** *** Idealised reading: real numbers *)

#[export] Instance DoubleOps_R : DoubleOps R := {
  d_lit := Q2R;
  d_opp := Ropp;
  d_add := Rplus;
  d_sub := Rminus;
  d_mul := Rmult;
  d_div := Rdiv;
  d_sqrt := R_sqrt.sqrt;
  d_to_float := fun r => r
}.

(** *** Executable reading: IEEE 754 binary64 *)

Definition Z2F (n : Z) : float :=
  match n with
  | Z0 => PrimFloat.zero
  | Zpos _ => of_uint63 (Uint63.of_Z n)
  | Zneg p => PrimFloat.opp (of_uint63 (Uint63.of_Z (Zpos p)))
  end.

(** Numerator and denominator of the literals of [main.c] are below 2^53,
    hence exact in binary64, and one correctly rounded division yields the
    binary64 number nearest to the literal, as a C compiler does. *)
Definition Q2F (q : Q) : float :=
  PrimFloat.div (Z2F (Qnum q)) (Z2F (Zpos (Qden q))).

(** Conversion of a [double] to [float] and back: round to nearest even on
    24 bits of precision with binary32's exponent range; zeros, infinities
    and NaN are unchanged. *)
Definition to_float32 (d : float) : float :=
  match Prim2SF d with
  | S754_finite s m e =>
      SF2Prim (binary_normalize 24 128 (cond_Zopp s (Zpos m)) e s)
  | _ => d
  end.

#[export] Instance DoubleOps_float : DoubleOps float := {
  d_lit := Q2F;
  d_opp := PrimFloat.opp;
  d_add := PrimFloat.add;
  d_sub := PrimFloat.sub;
  d_mul := PrimFloat.mul;
  d_div := PrimFloat.div;
  d_sqrt := PrimFloat.sqrt;
  d_to_float := to_float32
}.

End Arith.

(** ** [main.c] *)

Module Main.
Import Arith.

Section Program.
Context {T : Type} `{DoubleOps T}.
Local Open Scope dbl_scope.

Record Vector3d : Type := mkVector3d { x : T; y : T; z : T }.

(** The global variables of [main.c], in the order of their declaration. *)
Record Globals : Type := mkGlobals {
  gravityForce : Vector3d;
  magnusForce : Vector3d;
  dragForce : Vector3d;
  shotForce : Vector3d;
  position : Vector3d;
  velocity : Vector3d;
  acceleration : Vector3d;
  ballArea : T;
  spinVector : Vector3d;
  timeStep : T;
  turretAngle : T;
  shooterRPM : T;
  hoodAngle : T;
  ballMass : T;
  ballRadius : T;
  airDensity : T;
  dragCoefficient : T;
  magnusCoefficient : T
}.

(** Assignments to the globals that the update functions write. *)
Definition set_magnusForce (v : Vector3d) (g : Globals) : Globals :=
  mkGlobals g.(gravityForce) v g.(dragForce) g.(shotForce)
    g.(position) g.(velocity) g.(acceleration) g.(ballArea) g.(spinVector)
    g.(timeStep) g.(turretAngle) g.(shooterRPM) g.(hoodAngle) g.(ballMass)
    g.(ballRadius) g.(airDensity) g.(dragCoefficient) g.(magnusCoefficient).

Definition set_dragForce (v : Vector3d) (g : Globals) : Globals :=
  mkGlobals g.(gravityForce) g.(magnusForce) v g.(shotForce)
    g.(position) g.(velocity) g.(acceleration) g.(ballArea) g.(spinVector)
    g.(timeStep) g.(turretAngle) g.(shooterRPM) g.(hoodAngle) g.(ballMass)
    g.(ballRadius) g.(airDensity) g.(dragCoefficient) g.(magnusCoefficient).

Definition set_shotForce (v : Vector3d) (g : Globals) : Globals :=
  mkGlobals g.(gravityForce) g.(magnusForce) g.(dragForce) v
    g.(position) g.(velocity) g.(acceleration) g.(ballArea) g.(spinVector)
    g.(timeStep) g.(turretAngle) g.(shooterRPM) g.(hoodAngle) g.(ballMass)
    g.(ballRadius) g.(airDensity) g.(dragCoefficient) g.(magnusCoefficient).

Definition set_position (v : Vector3d) (g : Globals) : Globals :=
  mkGlobals g.(gravityForce) g.(magnusForce) g.(dragForce) g.(shotForce)
    v g.(velocity) g.(acceleration) g.(ballArea) g.(spinVector)
    g.(timeStep) g.(turretAngle) g.(shooterRPM) g.(hoodAngle) g.(ballMass)
    g.(ballRadius) g.(airDensity) g.(dragCoefficient) g.(magnusCoefficient).

Definition set_velocity (v : Vector3d) (g : Globals) : Globals :=
  mkGlobals g.(gravityForce) g.(magnusForce) g.(dragForce) g.(shotForce)
    g.(position) v g.(acceleration) g.(ballArea) g.(spinVector)
    g.(timeStep) g.(turretAngle) g.(shooterRPM) g.(hoodAngle) g.(ballMass)
    g.(ballRadius) g.(airDensity) g.(dragCoefficient) g.(magnusCoefficient).

Definition set_acceleration (v : Vector3d) (g : Globals) : Globals :=
  mkGlobals g.(gravityForce) g.(magnusForce) g.(dragForce) g.(shotForce)
    g.(position) g.(velocity) v g.(ballArea) g.(spinVector)
    g.(timeStep) g.(turretAngle) g.(shooterRPM) g.(hoodAngle) g.(ballMass)
    g.(ballRadius) g.(airDensity) g.(dragCoefficient) g.(magnusCoefficient).

Definition set_spinVector (v : Vector3d) (g : Globals) : Globals :=
  mkGlobals g.(gravityForce) g.(magnusForce) g.(dragForce) g.(shotForce)
    g.(position) g.(velocity) g.(acceleration) g.(ballArea) v
    g.(timeStep) g.(turretAngle) g.(shooterRPM) g.(hoodAngle) g.(ballMass)
    g.(ballRadius) g.(airDensity) g.(dragCoefficient) g.(magnusCoefficient).

Definition createVector (a b c : T) : Vector3d := mkVector3d a b c.

(** The values the globals are initialised with.  [ballArea] and
    [spinVector] have no initialiser and start at zero: [main] declares
    locals of the same names and never writes the globals. *)
Definition zeroVector : Vector3d :=
  mkVector3d (d_lit 0.0) (d_lit 0.0) (d_lit 0.0).

Definition initial : Globals := {|
  gravityForce := mkVector3d (d_lit 0.0) (d_lit 0.0) (- d_lit 9.81);
  magnusForce := zeroVector;
  dragForce := zeroVector;
  shotForce := zeroVector;
  position := zeroVector;
  velocity := zeroVector;
  acceleration := zeroVector;
  ballArea := d_lit 0.0;
  spinVector := zeroVector;
  timeStep := d_lit 0.01;
  turretAngle := d_lit 0.0;
  shooterRPM := d_lit 0.0;
  hoodAngle := d_lit 0.0;
  ballMass := d_lit 0.045;
  ballRadius := d_lit 0.02135;
  airDensity := d_lit 1.225;
  dragCoefficient := d_lit 0.47;
  magnusCoefficient := d_lit 0.1
|}.

Definition add (a b : Vector3d) : Vector3d :=
  mkVector3d (a.(x) + b.(x)) (a.(y) + b.(y)) (a.(z) + b.(z)).

(** The parameter [scalar] has type [float]: the argument is narrowed at
    the call, and widened again for each product. *)
Definition scalarMultiply (v : Vector3d) (scalar : T) : Vector3d :=
  let scalar := d_to_float scalar in
  mkVector3d (v.(x) * scalar) (v.(y) * scalar) (v.(z) * scalar).

Definition vectorCross (a b : Vector3d) : Vector3d :=
  mkVector3d (a.(y) * b.(z) - a.(z) * b.(y))
             (a.(z) * b.(x) - a.(x) * b.(z))
             (a.(x) * b.(y) - a.(y) * b.(x)).

Definition vectorMagnitude (v : Vector3d) : T :=
  d_sqrt (v.(x) * v.(x) + v.(y) * v.(y) + v.(z) * v.(z)).

Definition vectorDot (a b : Vector3d) : T :=
  a.(x) * b.(x) + a.(y) * b.(y) + a.(z) * b.(z).

Definition perpendicular2D (v : Vector3d) : Vector3d :=
  createVector (- v.(y)) v.(x) (d_lit 0.0).

Definition updateDragForce (g : Globals) : Globals :=
  let speed := vectorMagnitude g.(velocity) in
  let dragMagnitude :=
    d_lit 0.5 * g.(airDensity) * speed * speed * g.(dragCoefficient)
    * g.(ballArea) in
  let dragDirection := scalarMultiply g.(velocity) (- d_lit 1.0 / speed) in
  set_dragForce (scalarMultiply dragDirection dragMagnitude) g.

Definition updateMagnusForce (g : Globals) : Globals :=
  let speed := vectorMagnitude g.(velocity) in
  let magnusMagnitude :=
    d_lit 0.5 * g.(airDensity) * speed * g.(ballArea) * g.(ballRadius)
    * g.(magnusCoefficient) in
  let magnusDirection := vectorCross g.(spinVector) g.(velocity) in
  set_magnusForce (scalarMultiply magnusDirection magnusMagnitude) g.

Definition updateShotForce (g : Globals) : Globals :=
  set_shotForce (createVector (d_lit 0.0) (d_lit 0.0) (d_lit 0.0)) g.

Definition updateForces (g : Globals) : Globals :=
  updateShotForce (updateMagnusForce (updateDragForce g)).

Definition updateAcceleration (g : Globals) : Globals :=
  let totalForce :=
    add (add g.(gravityForce) g.(dragForce))
        (add g.(magnusForce) g.(shotForce)) in
  set_acceleration (scalarMultiply totalForce (d_lit 1.0 / g.(ballMass))) g.

Definition updateVelocity (g : Globals) : Globals :=
  set_velocity
    (add g.(velocity) (scalarMultiply g.(acceleration) g.(timeStep))) g.

Definition updatePosition (g : Globals) : Globals :=
  set_position
    (add g.(position) (scalarMultiply g.(velocity) g.(timeStep))) g.

End Program.

Arguments Vector3d T : clear implicits.
Arguments Globals T : clear implicits.

End Main.

(** ** [SumCode.c] *)

Module SumCode.
Local Open Scope R_scope.

Definition SIGMA_MIN : R := 1e-6.

(** *** The C library's [erf]

    [erf v] is 2/sqrt(pi) times the integral of exp(-u^2) for u from 0 to
    v; the integral is the Riemann integral of the Standard Library. *)

Definition gaussKernel (u : R) : R := exp (- (u * u)).

Definition gaussKernel_integrable (a b : R) :
  Riemann_integrable gaussKernel a b.
Proof.
  assert (C : forall lo hi u, lo <= u <= hi -> continuity_pt gaussKernel u).
  { intros lo hi u _. unfold gaussKernel. reg. }
  destruct (Rle_dec a b) as [Hab | Hab].
  - apply continuity_implies_RiemannInt; [exact Hab | apply C].
  - apply RiemannInt_P1, continuity_implies_RiemannInt; [lra | apply C].
Qed.

Definition erf (v : R) : R :=
  2 / sqrt PI * RiemannInt (gaussKernel_integrable 0 v).

(** [fmax] on real numbers. *)
Definition fmax (a b : R) : R := Rmax a b.

(** [a < b] of C, as a boolean. *)
Definition ltb (a b : R) : bool := if Rlt_dec a b then true else false.

(** *** The functions of [SumCode.c] *)

Definition normalCDF (x : R) : R :=
  0.5 * (1.0 + erf (x / sqrt 2.0)).

Definition calculateShotForce
    (transferEfficiency ballMass shooterRPM bottomWheelRadius gearRatio
     topWheelRadius compression compressionRatio contactTime
     currentTime : R) : R :=
  if (ltb currentTime 0.0 || ltb contactTime currentTime)%bool then 0.0
  else
    let omega_b := (2.0 * PI * shooterRPM) / 60.0 in
    let v_rim_bot := omega_b * bottomWheelRadius in
    let v_rim_top := omega_b * gearRatio * topWheelRadius in
    let v_muzzle := (v_rim_bot + v_rim_top) / 2.0 in
    let impulse := transferEfficiency * ballMass * v_muzzle in
    let t0 := contactTime / 2.0 in
    let sigma := fmax (compressionRatio * compression) SIGMA_MIN in
    let cdf_lo := normalCDF ((0.0 - t0) / sigma) in
    let cdf_hi := normalCDF ((contactTime - t0) / sigma) in
    let norm := cdf_hi - cdf_lo in
    if ltb norm 1e-12 then 0.0
    else
      let exponent := - 0.5 * ((currentTime - t0) / sigma) ^ 2 in
      let gaussian := (1.0 / (sigma * sqrt (2.0 * PI))) * exp exponent in
      (impulse / norm) * gaussian.

End SumCode.

(** ** [SumCode.c] over any arithmetic *)

Module SumCodeAny.
Import Arith.

(** What [SumCode.c] takes from <math.h> beyond the operations of
    [DoubleOps]. *)
Class LibmOps (T : Type) : Type := {
  m_pi : T;                  (* M_PI *)
  m_erf : T -> T;
  m_exp : T -> T;
  m_pow : T -> nat -> T;     (* pow, called with the exponent 2 only *)
  m_fmax : T -> T -> T;
  m_ltb : T -> T -> bool     (* a < b *)
}.

#[export] Instance LibmOps_R : LibmOps R := {
  m_pi := PI;
  m_erf := SumCode.erf;
  m_exp := exp;
  m_pow := pow;
  m_fmax := Rmax;
  m_ltb := SumCode.ltb
}.

Section Program.
Context {T : Type} `{DoubleOps T} `{LibmOps T}.
Local Open Scope dbl_scope.

Definition SIGMA_MIN : T := d_lit 1e-6.

Definition normalCDF (x : T) : T :=
  d_lit 0.5 * (d_lit 1.0 + m_erf (x / d_sqrt (d_lit 2.0))).

(** The value of the local [norm], lines 31 to 36 of the function. *)
Definition shotNorm (compression compressionRatio contactTime : T) : T :=
  let t0 := contactTime / d_lit 2.0 in
  let sigma := m_fmax (compressionRatio * compression) SIGMA_MIN in
  let cdf_lo := normalCDF ((d_lit 0.0 - t0) / sigma) in
  let cdf_hi := normalCDF ((contactTime - t0) / sigma) in
  cdf_hi - cdf_lo.

Definition calculateShotForce
    (transferEfficiency ballMass shooterRPM bottomWheelRadius gearRatio
     topWheelRadius compression compressionRatio contactTime
     currentTime : T) : T :=
  if (m_ltb currentTime (d_lit 0.0) || m_ltb contactTime currentTime)%bool
  then d_lit 0.0
  else
    let omega_b := (d_lit 2.0 * m_pi * shooterRPM) / d_lit 60.0 in
    let v_rim_bot := omega_b * bottomWheelRadius in
    let v_rim_top := omega_b * gearRatio * topWheelRadius in
    let v_muzzle := (v_rim_bot + v_rim_top) / d_lit 2.0 in
    let impulse := transferEfficiency * ballMass * v_muzzle in
    let t0 := contactTime / d_lit 2.0 in
    let sigma := m_fmax (compressionRatio * compression) SIGMA_MIN in
    let cdf_lo := normalCDF ((d_lit 0.0 - t0) / sigma) in
    let cdf_hi := normalCDF ((contactTime - t0) / sigma) in
    let norm := cdf_hi - cdf_lo in
    if m_ltb norm (d_lit 1e-12) then d_lit 0.0
    else
      let exponent :=
        d_lit (-0.5) * m_pow ((currentTime - t0) / sigma) 2 in
      let gaussian :=
        (d_lit 1.0 / (sigma * d_sqrt (d_lit 2.0 * m_pi))) * m_exp exponent in
      (impulse / norm) * gaussian.

End Program.

End SumCodeAny.

(** ** The shot-force model as the specification words it *)

Module Launcher.
Local Open Scope R_scope.

Record LauncherParameters : Type := mkLauncherParameters {
  transferEfficiency : R;
  ballMass : R;
  shooterRPM : R;
  bottomWheelRadius : R;
  gearRatio : R;
  topWheelRadius : R;
  compression : R;
  compressionRatio : R;
  contactTime : R
}.

(** The constraints the data model puts on a [LauncherParameters]. *)
Definition constraints (p : LauncherParameters) : Prop :=
  0 < p.(transferEfficiency) <= 1 /\ 0 < p.(ballMass) /\
  0 <= p.(shooterRPM) /\ 0 < p.(bottomWheelRadius) /\ 0 < p.(gearRatio) /\
  0 < p.(topWheelRadius) /\ 0 <= p.(compression) /\
  0 <= p.(compressionRatio) /\ 0 < p.(contactTime).

(** [calculateShotForce] of the source, called on the fields of [p]. *)
Definition computeShotForceMagnitude (p : LauncherParameters) (t : R) : R :=
  SumCode.calculateShotForce p.(transferEfficiency) p.(ballMass)
    p.(shooterRPM) p.(bottomWheelRadius) p.(gearRatio) p.(topWheelRadius)
    p.(compression) p.(compressionRatio) p.(contactTime) t.

(** Follows the specification: angular rate, rim speeds, muzzle velocity,
    impulse, centre and width of the Gaussian. *)
Definition omega (p : LauncherParameters) : R :=
  2 * PI * p.(shooterRPM) / 60.

Definition muzzleVelocity (p : LauncherParameters) : R :=
  (omega p * p.(bottomWheelRadius)
   + omega p * p.(gearRatio) * p.(topWheelRadius)) / 2.

Definition impulse (p : LauncherParameters) : R :=
  p.(transferEfficiency) * p.(ballMass) * muzzleVelocity p.

Definition t0 (p : LauncherParameters) : R := p.(contactTime) / 2.

Definition sigma (p : LauncherParameters) : R :=
  Rmax (p.(compressionRatio) * p.(compression)) (1 / 1000000).

(** Density of the normal law of mean [mu] and standard deviation [sd]. *)
Definition pdf (mu sd t : R) : R :=
  1 / (sd * sqrt (2 * PI)) * exp (- ((t - mu) * (t - mu)) / (2 * (sd * sd))).

(** Its cumulative distribution function, from the standard normal one,
    itself from the error function. *)
Definition stdNormalCDF (u : R) : R := (1 + SumCode.erf (u / sqrt 2)) / 2.

Definition CDF (mu sd t : R) : R := stdNormalCDF ((t - mu) / sd).

(** The normalisation denominator CDF(contactTime) - CDF(0). *)
Definition denominator (p : LauncherParameters) : R :=
  CDF (t0 p) (sigma p) p.(contactTime) - CDF (t0 p) (sigma p) 0.

(** Force at time [t]: (impulse / denominator) times the density at [t]. *)
Definition truncatedGaussianForce (p : LauncherParameters) (t : R) : R :=
  impulse p / denominator p * pdf (t0 p) (sigma p) t.

(** The concrete scenario of the specification. *)
Definition scenario : LauncherParameters := {|
  transferEfficiency := 0.8;
  ballMass := 0.045;
  shooterRPM := 4000;
  bottomWheelRadius := 0.05;
  gearRatio := 1.0;
  topWheelRadius := 0.05;
  compression := 0.01;
  compressionRatio := 0.5;
  contactTime := 0.02
|}.

(** Valid parameters with a contact window far shorter than the width of
    the Gaussian. *)
Definition shortContact : LauncherParameters := {|
  transferEfficiency := 0.8;
  ballMass := 0.045;
  shooterRPM := 4000;
  bottomWheelRadius := 0.05;
  gearRatio := 1.0;
  topWheelRadius := 0.05;
  compression := 1;
  compressionRatio := 1;
  contactTime := 1e-13
|}.

End Launcher.

(** ** States used in the statements about [main.c] *)

Module States.
Import Arith Main.

(** The zero vector of the idealised reading. *)
Definition zeroR : Vector3d R := mkVector3d 0%R 0%R 0%R.

(** The initial globals with a unit acceleration along z. *)
Definition unitFall : Globals R :=
  set_acceleration (mkVector3d 0%R 0%R 1%R) initial.

(** The initial globals of the program, on binary64 numbers. *)
Definition atRest : Globals float := initial.

End States.

(** ** Compositions of the update functions, and [angleToVector2D]

    [main] never calls the update functions; the statements below compose
    them in the order the integration scheme needs. *)

Module Steps.
Import Arith Main.

Section Compositions.
Context {T : Type} `{DoubleOps T}.

(** The kinematic updates of one step, after the forces are known. *)
Definition integrationStep (g : Globals T) : Globals T :=
  updatePosition (updateVelocity (updateAcceleration g)).

(** A whole step: forces, acceleration, velocity, position. *)
Definition fullStep (g : Globals T) : Globals T :=
  integrationStep (updateForces g).

End Compositions.

(** [angleToVector2D] calls [cos] and [sin] of the C library: real numbers
    only. *)
Definition angleToVector2D (angleDeg : R) : Vector3d R :=
  let angleRad := (angleDeg * (3.14159 / 180.0))%R in
  createVector (cos angleRad) (sin angleRad) 0.0%R.

(** What [integrationStep] reads and never writes. *)
Definition sameSetup (g h : Globals R) : Prop :=
  (gravityForce h = gravityForce g /\ dragForce h = dragForce g
   /\ magnusForce h = magnusForce g /\ shotForce h = shotForce g
   /\ ballMass h = ballMass g /\ timeStep h = timeStep g)%type.

End Steps.

(** * The error function

    Bounds on [erf] from bounds on the integrand: on [0, v] the kernel lies
    between exp(-v^2) and 1. *)

Section ErrorFunction.
Import SumCode.
Local Open Scope R_scope.

Lemma gaussKernel_le_1 (u : R) : gaussKernel u <= 1.
Proof.
  unfold gaussKernel. rewrite <- exp_0.
  destruct (Req_dec (u * u) 0) as [E | N].
  - rewrite E, Ropp_0. lra.
  - left. apply exp_increasing. nra.
Qed.

Lemma gaussKernel_ge (u v : R) : 0 <= u <= v -> gaussKernel v <= gaussKernel u.
Proof.
  intros [Hu Hv]. unfold gaussKernel.
  destruct (Req_dec (u * u) (v * v)) as [E | N].
  - rewrite E. lra.
  - left. apply exp_increasing. nra.
Qed.

Lemma integral_upper (a b : R) :
  a <= b -> RiemannInt (gaussKernel_integrable a b) <= b - a.
Proof.
  intro Hab.
  rewrite <- (Rmult_1_l (b - a)), <- (RiemannInt_P15 (RiemannInt_P14 a b 1)).
  apply RiemannInt_P19; [exact Hab |].
  intros u _. unfold fct_cte. apply gaussKernel_le_1.
Qed.

Lemma integral_lower (v : R) :
  0 <= v -> v * gaussKernel v <= RiemannInt (gaussKernel_integrable 0 v).
Proof.
  intro Hv.
  replace (v * gaussKernel v) with (gaussKernel v * (v - 0)) by ring.
  rewrite <- (RiemannInt_P15 (RiemannInt_P14 0 v (gaussKernel v))).
  apply RiemannInt_P19; [exact Hv |].
  intros u Hu. unfold fct_cte. apply gaussKernel_ge. lra.
Qed.

Lemma integral_nonneg (a b : R) :
  a <= b -> 0 <= RiemannInt (gaussKernel_integrable a b).
Proof.
  intro Hab.
  replace 0 with (0 * (b - a)) by ring.
  rewrite <- (RiemannInt_P15 (RiemannInt_P14 a b 0)).
  apply RiemannInt_P19; [exact Hab |].
  intros u _. unfold fct_cte, gaussKernel. left. apply exp_pos.
Qed.

Lemma erf_0 : erf 0 = 0.
Proof. unfold erf. rewrite RiemannInt_P9. ring. Qed.

Lemma sqrt_PI_bounds : 1 <= sqrt PI <= 2.
Proof.
  pose proof PI_4 as H4. pose proof PI2_3_2 as H3.
  assert (0 <= PI) as H0 by lra.
  pose proof (sqrt_def PI H0) as Hd. pose proof (sqrt_pos PI) as Hp.
  split; nra.
Qed.

Lemma erf_lower (v : R) : 0 <= v -> v * gaussKernel v <= erf v.
Proof.
  intro Hv. unfold erf.
  pose proof (integral_lower Hv) as Hl. pose proof sqrt_PI_bounds as [Hs1 Hs2].
  assert (0 <= v * gaussKernel v) as H0.
  { apply Rmult_le_pos; [exact Hv | left; apply exp_pos]. }
  assert (1 <= 2 / sqrt PI) as Hc.
  { apply Rmult_le_reg_r with (sqrt PI); [lra |]. field_simplify; lra. }
  nra.
Qed.

Lemma erf_upper (v : R) : 0 <= v -> erf v <= 2 * v.
Proof.
  intro Hv. unfold erf.
  pose proof (integral_upper Hv) as Hu. pose proof (integral_nonneg Hv) as Hn.
  pose proof sqrt_PI_bounds as [Hs1 Hs2].
  assert (0 < 2 / sqrt PI <= 2) as Hc.
  { split.
    - apply Rdiv_lt_0_compat; lra.
    - apply Rmult_le_reg_r with (sqrt PI); [lra |]. field_simplify; lra. }
  nra.
Qed.

Lemma erf_nonpos (v : R) : v <= 0 -> 2 * v <= erf v <= 0.
Proof.
  intro Hv. unfold erf.
  rewrite (RiemannInt_P8 (gaussKernel_integrable 0 v)
                         (gaussKernel_integrable v 0)).
  pose proof (integral_upper Hv) as Hu. pose proof (integral_nonneg Hv) as Hn.
  pose proof sqrt_PI_bounds as [Hs1 Hs2].
  assert (0 < 2 / sqrt PI <= 2) as Hc.
  { split.
    - apply Rdiv_lt_0_compat; lra.
    - apply Rmult_le_reg_r with (sqrt PI); [lra |]. field_simplify; lra. }
  split; nra.
Qed.

End ErrorFunction.

(** * Properties of [SumCode.c] *)

Section ShotForce.
Import SumCode Launcher.
Local Open Scope R_scope.

Lemma ltb_lt (a b : R) : ltb a b = true <-> a < b.
Proof.
  unfold ltb. destruct (Rlt_dec a b) as [L | L]; split; intro E;
    try reflexivity; try assumption; try discriminate; contradiction.
Qed.

Lemma ltb_ge (a b : R) : ltb a b = false <-> b <= a.
Proof.
  unfold ltb. destruct (Rlt_dec a b) as [L | L]; split; intro E;
    try reflexivity; try discriminate; lra.
Qed.

Lemma sigma_pos (p : LauncherParameters) : 0 < sigma p.
Proof.
  unfold sigma.
  pose proof (Rmax_r (compressionRatio p * compression p) (1 / 1000000)).
  lra.
Qed.

Lemma sqrt_2PI_pos : 0 < sqrt (2 * PI).
Proof. apply sqrt_lt_R0. pose proof PI_RGT_0. lra. Qed.

Lemma pdf_pos (mu sd t : R) : 0 < sd -> 0 < pdf mu sd t.
Proof.
  intro Hsd. unfold pdf.
  apply Rmult_lt_0_compat; [| apply exp_pos].
  apply Rdiv_lt_0_compat; [lra |].
  apply Rmult_lt_0_compat; [exact Hsd | exact sqrt_2PI_pos].
Qed.

(** Outside the contact window the first test of the function fires. *)
Lemma shotForce_outside (p : LauncherParameters) (t : R) :
  t < 0 \/ contactTime p < t -> computeShotForceMagnitude p t = 0.
Proof.
  intros Hout. unfold computeShotForceMagnitude, calculateShotForce.
  replace 0.0 with 0 by lra.
  destruct Hout as [Hneg | Hpast].
  - apply ltb_lt in Hneg. rewrite Hneg. reflexivity.
  - apply ltb_lt in Hpast. rewrite Hpast, Bool.orb_true_r. reflexivity.
Qed.

(** Inside the window the function is the guarded truncated Gaussian. *)
Lemma shotForce_inside (p : LauncherParameters) (t : R) :
  0 <= t <= contactTime p ->
  computeShotForceMagnitude p t =
    if ltb (denominator p) (1 / 1000000000000) then 0
    else truncatedGaussianForce p t.
Proof.
  intros [Hlo Hhi]. unfold computeShotForceMagnitude, calculateShotForce.
  replace 0.0 with 0 by lra.
  apply ltb_ge in Hlo. apply ltb_ge in Hhi. rewrite Hlo, Hhi. cbn [orb].
  pose proof (sigma_pos p) as Hs. pose proof sqrt_2PI_pos as Hq.
  assert (Es : fmax (compressionRatio p * compression p) SIGMA_MIN = sigma p).
  { unfold fmax, SIGMA_MIN, sigma. f_equal; lra. }
  cbv zeta. rewrite Es.
  assert (En : normalCDF ((contactTime p - contactTime p / 2.0) / sigma p)
               - normalCDF ((0 - contactTime p / 2.0) / sigma p)
               = denominator p).
  { unfold denominator, CDF, stdNormalCDF, normalCDF, t0.
    replace 2.0 with 2 by lra. replace 1.0 with 1 by lra. lra. }
  rewrite En. replace 1e-12 with (1 / 1000000000000) by lra.
  destruct (ltb (denominator p) (1 / 1000000000000)); [reflexivity |].
  unfold truncatedGaussianForce, impulse, muzzleVelocity, omega, pdf, t0.
  replace 2.0 with 2 by lra. replace 1.0 with 1 by lra.
  replace 60.0 with 60 by lra.
  replace (- 0.5 * ((t - contactTime p / 2) / sigma p) ^ 2)
    with (- ((t - contactTime p / 2) * (t - contactTime p / 2))
          / (2 * (sigma p * sigma p)))
    by (cbv [Q2R Qnum Qden]; field; lra).
  reflexivity.
Qed.

Lemma pdf_symmetric (mu sd d : R) : pdf mu sd (mu - d) = pdf mu sd (mu + d).
Proof. unfold pdf. do 2 f_equal. f_equal. ring. Qed.

Lemma pdf_max (mu sd t : R) : 0 < sd -> pdf mu sd t <= pdf mu sd mu.
Proof.
  intro Hsd. unfold pdf.
  apply Rmult_le_compat_l.
  - left. apply Rdiv_lt_0_compat; [lra |].
    apply Rmult_lt_0_compat; [exact Hsd | exact sqrt_2PI_pos].
  - assert (- ((t - mu) * (t - mu)) / (2 * (sd * sd))
            <= - ((mu - mu) * (mu - mu)) / (2 * (sd * sd))) as Hexp.
    { replace (- ((mu - mu) * (mu - mu)) / (2 * (sd * sd))) with 0
        by (field; lra).
      assert (0 < / (2 * (sd * sd))) as Hden
        by (apply Rinv_0_lt_compat; nra).
      pose proof (Rle_0_sqr (t - mu)) as Hsq. unfold Rsqr in Hsq.
      unfold Rdiv. nra. }
    destruct Hexp as [L | E]; [left; apply exp_increasing; exact L |].
    rewrite E. lra.
Qed.

Lemma impulse_nonneg (p : LauncherParameters) : constraints p -> 0 <= impulse p.
Proof.
  unfold constraints. intros ([Hte _] & Hm & Hrpm & Hrb & Hgr & Hrt & _).
  assert (0 <= omega p) as Hw.
  { unfold omega. pose proof PI_RGT_0. apply Rmult_le_reg_r with 60; [lra |].
    field_simplify. nra. }
  assert (0 <= muzzleVelocity p) as Hv.
  { unfold muzzleVelocity.
    assert (0 <= omega p * bottomWheelRadius p) by nra.
    assert (0 <= omega p * gearRatio p) by nra.
    assert (0 <= omega p * gearRatio p * topWheelRadius p) by nra.
    lra. }
  unfold impulse.
  assert (0 <= transferEfficiency p * ballMass p) by nra.
  nra.
Qed.

(** The denominator in terms of [erf], with u = contactTime / (2 sigma). *)
Lemma denominator_erf (p : LauncherParameters) :
  let u := contactTime p / (2 * sigma p) in
  denominator p = (erf (u / sqrt 2) - erf (- (u / sqrt 2))) / 2.
Proof.
  pose proof (sigma_pos p) as Hs.
  assert (0 < sqrt 2) as H2 by (apply sqrt_lt_R0; lra).
  cbv zeta. unfold denominator, CDF, stdNormalCDF, t0.
  replace ((contactTime p - contactTime p / 2) / sigma p / sqrt 2)
    with (contactTime p / (2 * sigma p) / sqrt 2) by (field; lra).
  replace ((0 - contactTime p / 2) / sigma p / sqrt 2)
    with (- (contactTime p / (2 * sigma p) / sqrt 2)) by (field; lra).
  lra.
Qed.

Lemma denominator_upper (p : LauncherParameters) :
  0 <= contactTime p -> denominator p <= contactTime p / sigma p.
Proof.
  intro Hct. pose proof (sigma_pos p) as Hs.
  assert (1 <= sqrt 2) as H2.
  { rewrite <- sqrt_1 at 1. apply sqrt_le_1_alt. lra. }
  rewrite denominator_erf. cbv zeta.
  set (u := contactTime p / (2 * sigma p)).
  assert (0 <= u) as Hu.
  { unfold u. apply Rmult_le_reg_r with (2 * sigma p); [lra |].
    field_simplify; lra. }
  assert (0 <= u / sqrt 2 <= u) as [Hv0 Hv1].
  { split.
    - apply Rmult_le_reg_r with (sqrt 2); [lra |]. field_simplify; lra.
    - apply Rmult_le_reg_r with (sqrt 2); [lra |]. field_simplify; nra. }
  pose proof (erf_upper Hv0) as Hup.
  assert (- (u / sqrt 2) <= 0) as Hneg by lra.
  pose proof (erf_nonpos Hneg) as [Hlo _].
  replace (contactTime p / sigma p) with (2 * u) by (unfold u; field; lra).
  lra.
Qed.

Lemma denominator_lower (p : LauncherParameters) :
  0 <= contactTime p ->
  let v := contactTime p / (2 * sigma p) / sqrt 2 in
  v * exp (- (v * v)) / 2 <= denominator p.
Proof.
  intro Hct. pose proof (sigma_pos p) as Hs.
  assert (0 < sqrt 2) as H2 by (apply sqrt_lt_R0; lra).
  rewrite denominator_erf. cbv zeta.
  set (v := contactTime p / (2 * sigma p) / sqrt 2).
  assert (0 <= v) as Hv.
  { unfold v. apply Rmult_le_reg_r with (2 * sigma p * sqrt 2); [nra |].
    field_simplify; lra. }
  pose proof (erf_lower Hv) as Hlow. unfold gaussKernel in Hlow.
  assert (- v <= 0) as Hneg by lra.
  pose proof (erf_nonpos Hneg) as [_ Hup].
  lra.
Qed.

Lemma scenario_constraints : constraints scenario.
Proof. unfold constraints, scenario; simpl. lra. Qed.

Lemma shortContact_constraints : constraints shortContact.
Proof. unfold constraints, shortContact; simpl. lra. Qed.

Lemma scenario_denominator : 1e-12 <= denominator scenario.
Proof.
  assert (0 <= contactTime scenario) as Hct by (simpl; lra).
  pose proof (denominator_lower scenario Hct) as Hl. cbv zeta in Hl.
  assert (Es : sigma scenario = 5 / 1000).
  { unfold sigma, scenario; simpl. rewrite Rmax_left; lra. }
  rewrite Es in Hl. simpl contactTime in Hl.
  set (v := 0.02 / (2 * (5 / 1000)) / sqrt 2) in *.
  assert (0 <= 2) as H02 by lra.
  pose proof (sqrt_def 2 H02) as Hd. pose proof (sqrt_pos 2) as Hp.
  assert (0 < sqrt 2) as H2 by (apply sqrt_lt_R0; lra).
  assert (Ev : v = 2 / sqrt 2)
    by (unfold v; cbv [Q2R Qnum Qden]; field; lra).
  assert (Evv : v * v = 2).
  { rewrite Ev. replace (2 / sqrt 2 * (2 / sqrt 2))
      with (4 / (sqrt 2 * sqrt 2)) by (field; lra).
    rewrite Hd. lra. }
  assert (1 <= v) as Hv1.
  { rewrite Ev. apply Rmult_le_reg_r with (sqrt 2); [lra |].
    field_simplify; nra. }
  rewrite Evv in Hl.
  assert (1 / 9 <= exp (Ropp 2)) as He.
  { rewrite exp_Ropp. replace 2 with (1 + 1) by lra. rewrite exp_plus.
    pose proof exp_le_3 as H3. pose proof (exp_pos 1) as H1.
    apply Rmult_le_reg_r with (exp 1 * exp 1); [nra |].
    field_simplify; nra. }
  assert (1 / 9 <= v * exp (Ropp 2)) by nra.
  lra.
Qed.

Lemma shortContact_denominator : denominator shortContact < 1e-12.
Proof.
  assert (0 <= contactTime shortContact) as Hct by (simpl; lra).
  pose proof (denominator_upper shortContact Hct) as Hu.
  assert (Es : sigma shortContact = 1).
  { unfold sigma, shortContact; simpl. rewrite Rmax_left; lra. }
  rewrite Es in Hu. simpl contactTime in Hu. lra.
Qed.

(** C1.  Inside the contact window, when the normalisation denominator
    CDF(contactTime) - CDF(0) is at least 1e-12, [calculateShotForce]
    returns (impulse / denominator) times the normal density at [t] of mean
    [t0 = contactTime / 2] and standard deviation
    [sigma = max (compressionRatio * compression) 1e-6], the impulse being
    transferEfficiency * ballMass * muzzle velocity and the muzzle velocity
    the mean of the two rim speeds at angular rate 2 pi shooterRPM / 60. *)
Theorem shot_force_is_truncated_gaussian (p : LauncherParameters) (t : R) :
  0 <= t <= contactTime p ->
  1e-12 <= CDF (t0 p) (sigma p) (contactTime p) - CDF (t0 p) (sigma p) 0 ->
  computeShotForceMagnitude p t =
    impulse p
    / (CDF (t0 p) (sigma p) (contactTime p) - CDF (t0 p) (sigma p) 0)
    * pdf (t0 p) (sigma p) t
  /\ impulse p = transferEfficiency p * ballMass p * muzzleVelocity p
  /\ muzzleVelocity p =
       (2 * PI * shooterRPM p / 60 * bottomWheelRadius p
        + 2 * PI * shooterRPM p / 60 * gearRatio p * topWheelRadius p) / 2
  /\ t0 p = contactTime p / 2
  /\ sigma p = Rmax (compressionRatio p * compression p) 1e-6.
Proof.
  intros Hwin Hden. split.
  - rewrite (shotForce_inside p Hwin).
    fold (denominator p) in Hden |- *.
    assert (ltb (denominator p) (1 / 1000000000000) = false) as Hguard
      by (apply ltb_ge; lra).
    rewrite Hguard. reflexivity.
  - unfold impulse, muzzleVelocity, omega, t0, sigma.
    repeat split.
Qed.

Lemma shot_force_is_truncated_gaussian_witness :
  computeShotForceMagnitude scenario 0.01 =
    impulse scenario
    / (CDF (t0 scenario) (sigma scenario) (contactTime scenario)
       - CDF (t0 scenario) (sigma scenario) 0)
    * pdf (t0 scenario) (sigma scenario) 0.01.
Proof.
  apply (@shot_force_is_truncated_gaussian scenario 0.01).
  - simpl. lra.
  - exact scenario_denominator.
Defined.

(** C2.  For a time before 0 or after [contactTime],
    [calculateShotForce] returns exactly 0. *)
Theorem shot_force_zero_outside_window (p : LauncherParameters) (t : R) :
  t < 0 \/ t > contactTime p -> computeShotForceMagnitude p t = 0.
Proof. intros [H | H]; apply shotForce_outside; [left | right]; lra. Qed.

Lemma shot_force_zero_outside_window_witness :
  computeShotForceMagnitude scenario 0.03 = 0.
Proof.
  apply (@shot_force_zero_outside_window scenario 0.03). right. simpl. lra.
Defined.

(** Symmetry about the centre of the window, for all parameters. *)
Lemma shotForce_symmetric (p : LauncherParameters) (d : R) :
  0 <= d <= contactTime p / 2 ->
  computeShotForceMagnitude p (t0 p - d)
  = computeShotForceMagnitude p (t0 p + d).
Proof.
  intros Hd.
  assert (0 <= t0 p - d <= contactTime p) as Hl by (unfold t0; lra).
  assert (0 <= t0 p + d <= contactTime p) as Hr by (unfold t0; lra).
  rewrite (shotForce_inside p Hl), (shotForce_inside p Hr).
  unfold truncatedGaussianForce. rewrite pdf_symmetric. reflexivity.
Qed.

(** Inside the window the force is a non-negative multiple of the density
    as soon as the impulse is non-negative. *)
Lemma shotForce_le_centre (p : LauncherParameters) (t : R) :
  0 <= impulse p -> 0 <= t <= contactTime p ->
  computeShotForceMagnitude p t <= computeShotForceMagnitude p (t0 p).
Proof.
  intros Himp Hwin.
  assert (0 <= t0 p <= contactTime p) as Hc by (unfold t0; lra).
  rewrite (shotForce_inside p Hwin), (shotForce_inside p Hc).
  destruct (ltb (denominator p) (1 / 1000000000000)) eqn:Hguard; [lra |].
  apply ltb_ge in Hguard.
  unfold truncatedGaussianForce.
  apply Rmult_le_compat_l; [| apply pdf_max, sigma_pos].
  apply Rmult_le_reg_r with (denominator p); [lra |].
  field_simplify; lra.
Qed.

Lemma shotForce_nonneg (p : LauncherParameters) (t : R) :
  0 <= impulse p -> 0 <= computeShotForceMagnitude p t.
Proof.
  intro Himp.
  destruct (Rlt_dec t 0) as [Hneg | Hneg];
    [rewrite shotForce_outside; [lra | left; exact Hneg] |].
  destruct (Rlt_dec (contactTime p) t) as [Hpast | Hpast];
    [rewrite shotForce_outside; [lra | right; exact Hpast] |].
  assert (0 <= t <= contactTime p) as Hwin by lra.
  rewrite (shotForce_inside p Hwin).
  destruct (ltb (denominator p) (1 / 1000000000000)) eqn:Hguard; [lra |].
  apply ltb_ge in Hguard.
  unfold truncatedGaussianForce.
  apply Rmult_le_pos; [| left; apply pdf_pos, sigma_pos].
  apply Rmult_le_reg_r with (denominator p); [lra |].
  field_simplify; lra.
Qed.

(** C6.  For parameters within their constraints, [calculateShotForce] takes
    the same value at [t0 - d] and [t0 + d] for every [0 <= d <= t0], where
    [t0 = contactTime / 2], and its value at [t0] is the largest over the
    contact window. *)
Theorem shot_force_symmetric_with_peak_at_centre (p : LauncherParameters) :
  constraints p ->
  (forall d : R, 0 <= d <= contactTime p / 2 ->
     computeShotForceMagnitude p (t0 p - d)
     = computeShotForceMagnitude p (t0 p + d))
  /\ 0 <= t0 p <= contactTime p
  /\ (forall t : R, 0 <= t <= contactTime p ->
        computeShotForceMagnitude p t
        <= computeShotForceMagnitude p (t0 p)).
Proof.
  intro Hc. pose proof (impulse_nonneg Hc) as Himp.
  destruct Hc as (_ & _ & _ & _ & _ & _ & _ & _ & Hct).
  split; [exact (shotForce_symmetric p) |].
  split; [unfold t0; lra |].
  intros t Hwin. apply shotForce_le_centre; assumption.
Qed.

Lemma shot_force_symmetric_with_peak_at_centre_witness :
  (forall d : R, 0 <= d <= contactTime scenario / 2 ->
     computeShotForceMagnitude scenario (t0 scenario - d)
     = computeShotForceMagnitude scenario (t0 scenario + d))
  /\ 0 <= t0 scenario <= contactTime scenario
  /\ (forall t : R, 0 <= t <= contactTime scenario ->
        computeShotForceMagnitude scenario t
        <= computeShotForceMagnitude scenario (t0 scenario)).
Proof.
  apply (@shot_force_symmetric_with_peak_at_centre scenario).
  unfold constraints, scenario; simpl. lra.
Defined.

(** C7.  For parameters within their constraints (transferEfficiency in
    (0,1], ballMass > 0, shooterRPM >= 0, the radii and the gear ratio > 0,
    compression and compressionRatio >= 0, contactTime > 0) and every time,
    [calculateShotForce] returns a value >= 0. *)
Theorem shot_force_nonnegative (p : LauncherParameters) (t : R) :
  0 < transferEfficiency p <= 1 -> 0 < ballMass p -> 0 <= shooterRPM p ->
  0 < bottomWheelRadius p -> 0 < gearRatio p -> 0 < topWheelRadius p ->
  0 <= compression p -> 0 <= compressionRatio p -> 0 < contactTime p ->
  computeShotForceMagnitude p t >= 0.
Proof.
  intros. apply Rle_ge, shotForce_nonneg, impulse_nonneg.
  unfold constraints. tauto.
Qed.

Lemma shot_force_nonnegative_witness :
  computeShotForceMagnitude scenario 0.01 >= 0.
Proof.
  apply (@shot_force_nonnegative scenario 0.01); simpl; lra.
Defined.

End ShotForce.

(** * The degenerate-denominator guard, for any arithmetic *)

Section AnyArithmetic.
Import Arith SumCodeAny.
Context {T : Type} `{DoubleOps T} `{LibmOps T}.

(** C5.  Whatever the arithmetic, when the normalisation denominator the
    function computes, [norm] = CDF(contactTime) - CDF(0), compares below
    1e-12, [calculateShotForce] returns 0.0 at every time, in particular at
    every time of the contact window: the quotient impulse / norm is not
    part of the result, whatever the division does. *)
Theorem shot_force_zero_when_norm_below_guard
    (te m rpm rb gr rt c cr ct t : T) :
  m_ltb (shotNorm c cr ct) (d_lit 1e-12) = true ->
  calculateShotForce te m rpm rb gr rt c cr ct t = d_lit 0.0.
Proof.
  intro Hguard. unfold calculateShotForce.
  destruct (m_ltb t (d_lit 0.0) || m_ltb ct t)%bool; [reflexivity |].
  cbv zeta. fold (shotNorm c cr ct). rewrite Hguard. reflexivity.
Qed.

End AnyArithmetic.

(** The real reading of [SumCodeAny] is the embedding [SumCode], and its
    [norm] is the exact difference of the distribution function. *)

Section RealLink.
Import Arith SumCodeAny Launcher.
Local Open Scope R_scope.

Lemma shotNorm_real (c cr ct : R) :
  SumCodeAny.shotNorm c cr ct
  = SumCode.normalCDF ((ct - ct / 2.0) / SumCode.fmax (cr * c) SumCode.SIGMA_MIN)
    - SumCode.normalCDF
        ((0.0 - ct / 2.0) / SumCode.fmax (cr * c) SumCode.SIGMA_MIN).
Proof.
  unfold SumCodeAny.shotNorm, SumCodeAny.normalCDF, SumCodeAny.SIGMA_MIN,
    SumCode.normalCDF, SumCode.fmax, SumCode.SIGMA_MIN. cbn.
  replace (Q2R 1e-6) with 1e-6 by (unfold Q2R; cbn; lra).
  reflexivity.
Qed.

Lemma calculateShotForce_real (te m rpm rb gr rt c cr ct t : R) :
  SumCodeAny.calculateShotForce te m rpm rb gr rt c cr ct t
  = SumCode.calculateShotForce te m rpm rb gr rt c cr ct t.
Proof.
  unfold SumCodeAny.calculateShotForce, SumCode.calculateShotForce.
  fold (SumCodeAny.shotNorm c cr ct). rewrite shotNorm_real.
  unfold SumCodeAny.SIGMA_MIN, SumCode.fmax, SumCode.SIGMA_MIN. cbn.
  replace (Q2R 1e-6) with 1e-6 by (unfold Q2R; cbn; lra).
  replace (Q2R 1e-12) with 1e-12 by (unfold Q2R; cbn; lra).
  reflexivity.
Qed.

Lemma shotNorm_denominator (p : LauncherParameters) :
  SumCodeAny.shotNorm (compression p) (compressionRatio p) (contactTime p)
  = denominator p.
Proof.
  rewrite shotNorm_real.
  assert (Es : SumCode.fmax (compressionRatio p * compression p)
                 SumCode.SIGMA_MIN = sigma p).
  { unfold SumCode.fmax, SumCode.SIGMA_MIN, sigma. f_equal; lra. }
  rewrite Es.
  unfold denominator, CDF, stdNormalCDF, SumCode.normalCDF, t0.
  replace 2.0 with 2 by lra. replace 1.0 with 1 by lra.
  replace 0.0 with 0 by lra. lra.
Qed.

Lemma shot_force_zero_when_norm_below_guard_witness :
  SumCodeAny.calculateShotForce
    (transferEfficiency shortContact) (ballMass shortContact)
    (shooterRPM shortContact) (bottomWheelRadius shortContact)
    (gearRatio shortContact) (topWheelRadius shortContact)
    (compression shortContact) (compressionRatio shortContact)
    (contactTime shortContact) 0
  = d_lit 0.0.
Proof.
  apply (@shot_force_zero_when_norm_below_guard R _ _).
  rewrite shotNorm_denominator. apply ltb_lt.
  pose proof shortContact_denominator as Hd.
  replace (d_lit 1e-12) with 1e-12 by (cbn; unfold Q2R; cbn; lra).
  exact Hd.
Defined.

End RealLink.

(** * Properties of [main.c] *)

(** ** Frame properties, for any reading of the arithmetic *)

Section Frame.
Import Arith Main.
Context {T : Type} `{DoubleOps T}.

(** C10.  The force and acceleration updates leave the kinematic state
    alone: [updateForces] and each of [updateDragForce],
    [updateMagnusForce], [updateShotForce], as well as [updateAcceleration],
    keep [position], [velocity] and [spinVector]; [updateVelocity] keeps
    [position]. *)
Theorem force_updates_preserve_kinematics (g : Globals T) :
  (position (updateForces g) = position g
   /\ velocity (updateForces g) = velocity g
   /\ spinVector (updateForces g) = spinVector g)
  /\ (position (updateDragForce g) = position g
      /\ velocity (updateDragForce g) = velocity g
      /\ spinVector (updateDragForce g) = spinVector g)
  /\ (position (updateMagnusForce g) = position g
      /\ velocity (updateMagnusForce g) = velocity g
      /\ spinVector (updateMagnusForce g) = spinVector g)
  /\ (position (updateShotForce g) = position g
      /\ velocity (updateShotForce g) = velocity g
      /\ spinVector (updateShotForce g) = spinVector g)
  /\ (position (updateAcceleration g) = position g
      /\ velocity (updateAcceleration g) = velocity g
      /\ spinVector (updateAcceleration g) = spinVector g)
  /\ position (updateVelocity g) = position g.
Proof.
  destruct g. unfold updateForces, updateShotForce, updateMagnusForce,
    updateDragForce, updateAcceleration, updateVelocity.
  cbn. intuition reflexivity.
Qed.

(** The two kinematic updates in sequence, as vectors. *)
Lemma velocity_then_position (g : Globals T) :
  let g' := updatePosition (updateVelocity g) in
  velocity g' = add (velocity g) (scalarMultiply (acceleration g) (timeStep g))
  /\ position g' = add (position g) (scalarMultiply (velocity g') (timeStep g)).
Proof. destruct g. cbn. split; reflexivity. Qed.

End Frame.

(** ** The idealised reading *)

Section RealReading.
Import Arith Main States.
Local Open Scope R_scope.

Lemma zeroVector_R : zeroVector = zeroR.
Proof. unfold zeroVector, zeroR. cbn. f_equal; lra. Qed.

Lemma vector_ext (a b : Vector3d R) :
  x a = x b -> y a = y b -> z a = z b -> a = b.
Proof. destruct a, b. cbn. intros -> -> ->. reflexivity. Qed.

(** C9.  [updateVelocity] followed by [updatePosition]: the velocity
    becomes v + a * timeStep, and the position becomes p + v' * timeStep
    with v' the velocity just computed, that is
    p + (v + a * timeStep) * timeStep. *)
Theorem position_uses_updated_velocity (g : Globals R) :
  let g' := updatePosition (updateVelocity g) in
  let dt := timeStep g in
  (x (velocity g') = x (velocity g) + x (acceleration g) * dt
   /\ y (velocity g') = y (velocity g) + y (acceleration g) * dt
   /\ z (velocity g') = z (velocity g) + z (acceleration g) * dt)
  /\ (x (position g') = x (position g) + x (velocity g') * dt
      /\ y (position g') = y (position g) + y (velocity g') * dt
      /\ z (position g') = z (position g) + z (velocity g') * dt)
  /\ (x (position g')
        = x (position g) + (x (velocity g) + x (acceleration g) * dt) * dt
      /\ y (position g')
        = y (position g) + (y (velocity g) + y (acceleration g) * dt) * dt
      /\ z (position g')
        = z (position g) + (z (velocity g) + z (acceleration g) * dt) * dt).
Proof.
  pose proof (velocity_then_position g) as [Hv Hp]. cbv zeta in *.
  rewrite Hp, Hv. destruct g. cbn. repeat split.
Qed.

(** The scheme differs from explicit Euler, which would use the velocity
    before its update. *)
Lemma not_explicit_euler :
  let g' := updatePosition (updateVelocity unitFall) in
  z (position g')
  <> z (position unitFall) + z (velocity unitFall) * timeStep unitFall.
Proof. cbn. lra. Qed.

(** C8.  [updateMagnusForce] yields the zero vector when the spin vector is
    zero, whatever the velocity, and when the velocity is zero; in every
    state its result has dot product 0 with the spin vector and with the
    velocity. *)
Theorem magnus_force_zero_and_orthogonal (g : Globals R) :
  magnusForce (updateMagnusForce (set_spinVector zeroR g)) = zeroR
  /\ magnusForce (updateMagnusForce (set_velocity zeroR g)) = zeroR
  /\ vectorDot (magnusForce (updateMagnusForce g)) (spinVector g) = 0
  /\ vectorDot (magnusForce (updateMagnusForce g)) (velocity g) = 0.
Proof.
  destruct g as [gf mf df sf pos vel acc area spin dt ta rpm ha m rad rho cd cm].
  destruct spin as [sx sy sz], vel as [vx vy vz].
  unfold updateMagnusForce, vectorDot, zeroR. cbn.
  repeat split.
  - apply vector_ext; cbn; ring.
  - apply vector_ext; cbn; ring.
  - ring.
  - ring.
Qed.


(** One step from the initial globals, gravity being the only force. *)
Lemma gravity_only_step_real :
  let g := updatePosition (updateVelocity (updateAcceleration initial)) in
  z (acceleration g) = - 218 /\ z (velocity g) = - 2.18
  /\ z (position g) = - 0.0218.
Proof. cbn. repeat split; lra. Qed.

(** For a moving ball the drag is the velocity scaled by
    -(dragMagnitude / speed), and its norm is dragMagnitude. *)
Lemma drag_force_moving (g : Globals R) :
  let speed := vectorMagnitude (velocity g) in
  let dragMagnitude :=
    1 / 2 * airDensity g * (speed * speed) * dragCoefficient g * ballArea g in
  speed <> 0 ->
  dragForce (updateDragForce g)
    = scalarMultiply (velocity g) (- (dragMagnitude / speed))
  /\ (0 <= dragMagnitude ->
      vectorMagnitude (dragForce (updateDragForce g)) = dragMagnitude).
Proof.
  destruct g as [gf mf df sf pos vel acc area spin dt ta rpm ha m rad rho cd cm].
  destruct vel as [vx vy vz]. cbn.
  set (S := vx * vx + vy * vy + vz * vz).
  intro Hs.
  assert (0 <= S) as HS.
  { unfold S. pose proof (Rle_0_sqr vx). pose proof (Rle_0_sqr vy).
    pose proof (Rle_0_sqr vz). unfold Rsqr in *. lra. }
  pose proof (sqrt_def S HS) as Hd.
  set (s := sqrt S) in *.
  split.
  - apply vector_ext; cbn; cbv [Q2R Qnum Qden]; field; exact Hs.
  - intro Hm.
    set (k := 1 / 2 * rho * (s * s) * cd * area) in *.
    match goal with
    | |- sqrt ?sum = _ => replace sum with (k * k)
    end.
    + apply sqrt_square. exact Hm.
    + unfold k. cbv [Q2R Qnum Qden].
      transitivity
        (S * (1 / 2 * rho * cd * area * s) * (1 / 2 * rho * cd * area * s)).
      * rewrite <- Hd. ring.
      * unfold S. field. exact Hs.
Qed.
End RealReading.

(** ** The binary64 reading *)

Section Binary64Reading.
Import Arith Main States.
#[local] Set Warnings "-inexact-float".

(** The literals of the source, as the nearest binary64 numbers. *)
Lemma literals_binary64 :
  d_lit 9.81 = 9.81%float /\ d_lit 0.01 = 0.01%float
  /\ d_lit 0.045 = 0.045%float /\ d_to_float (d_lit 0.01) = 0x1.47ae14p-7%float.
Proof. vm_compute. repeat split. Qed.

(** C3.  From the initial globals (velocity zero; drag, Magnus and shot
    force zero; timeStep 0.01), [updateAcceleration], [updateVelocity] and
    [updatePosition] give velocity.z = -2.18 and position.z = -0.0218 up to
    rounding, not -0.0981 and -0.000981: the step divides the gravity vector
    (0, 0, -9.81) by [ballMass]. *)
Theorem gravity_only_step_binary64 :
  let g := updatePosition (updateVelocity (updateAcceleration atRest)) in
  z (acceleration g) = (-217.99999168395996)%float
  /\ z (velocity g) = (-2.1799998681128043)%float
  /\ z (position g) = (-0.021799998193860103)%float
  /\ PrimFloat.ltb (z (velocity g)) (-2)%float = true
  /\ PrimFloat.ltb (z (position g)) (-0.02)%float = true.
Proof. vm_compute. repeat split. Qed.

(** C4.  At rest the speed is 0, -1.0 / speed is minus infinity, and the
    product of the zero velocity by it is NaN: [updateDragForce] stores NaN
    in the three components of [dragForce], not zero. *)
Theorem drag_force_at_rest_binary64 :
  let speed := vectorMagnitude (velocity atRest) in
  let f := dragForce (updateDragForce atRest) in
  speed = 0%float
  /\ PrimFloat.div (PrimFloat.opp (d_lit 1.0)) speed = neg_infinity
  /\ is_nan (x f) = true /\ is_nan (y f) = true /\ is_nan (z f) = true.
Proof. vm_compute. repeat split. Qed.

(** The same for every state at rest, whatever the other globals hold. *)
Lemma Prim2SF_nan_is_nan (f : float) : Prim2SF f = S754_nan -> is_nan f = true.
Proof.
  unfold Prim2SF. destruct (is_nan f); [reflexivity |].
  destruct (is_zero f); [discriminate |].
  destruct (is_infinity f); [discriminate |].
  destruct (Z.frexp f) as [m e]. destruct (shr_fexp _ _ _ _ _) as [r e'].
  destruct (shr_m r); discriminate.
Qed.

Lemma nan_mul (f : float) : is_nan (PrimFloat.mul nan f) = true.
Proof.
  apply Prim2SF_nan_is_nan. rewrite mul_spec.
  replace (Prim2SF nan) with S754_nan by reflexivity.
  reflexivity.
Qed.

Lemma drag_force_at_rest_any_globals (g : Globals float) :
  velocity g = mkVector3d 0%float 0%float 0%float ->
  let f := dragForce (updateDragForce g) in
  is_nan (x f) = true /\ is_nan (y f) = true /\ is_nan (z f) = true.
Proof.
  intro Hv. unfold updateDragForce. rewrite Hv.
  cbn -[to_float32 PrimFloat.mul PrimFloat.div PrimFloat.sqrt PrimFloat.add
        Q2F].
  match goal with
  | |- context [PrimFloat.mul (PrimFloat.mul ?a ?b) _] =>
      replace (PrimFloat.mul a b) with nan by (vm_compute; reflexivity)
  end.
  repeat split; apply nan_mul.
Qed.

(** The NaN reaches the position within the same step. *)
Lemma full_step_at_rest_binary64 :
  let g :=
    updatePosition (updateVelocity (updateAcceleration (updateForces atRest)))
  in
  is_nan (z (acceleration g)) = true /\ is_nan (z (velocity g)) = true
  /\ is_nan (z (position g)) = true.
Proof. vm_compute. repeat split. Qed.

(** With zero spin and a finite velocity the Magnus force is zero in
    binary64 as well. *)
Lemma magnus_zero_spin_binary64 :
  let g := updateMagnusForce (set_velocity (mkVector3d 1 2 3)%float atRest) in
  PrimFloat.eqb (x (magnusForce g)) 0 = true
  /\ PrimFloat.eqb (y (magnusForce g)) 0 = true
  /\ PrimFloat.eqb (z (magnusForce g)) 0 = true.
Proof. vm_compute. repeat split. Qed.

End Binary64Reading.

(** * More on the error function: monotonicity, oddness, derivative *)

Section ErrorFunctionCalculus.
Import SumCode Launcher.
Local Open Scope R_scope.

Lemma integral_chasles (a b c : R) :
  RiemannInt (gaussKernel_integrable a b)
  + RiemannInt (gaussKernel_integrable b c)
  = RiemannInt (gaussKernel_integrable a c).
Proof. apply RiemannInt_P26. Qed.

Lemma erf_difference (a b : R) :
  erf b - erf a = 2 / sqrt PI * RiemannInt (gaussKernel_integrable a b).
Proof.
  unfold erf. rewrite <- (integral_chasles 0 a b). ring.
Qed.

Lemma integral_positive (a b : R) :
  a < b -> 0 < RiemannInt (gaussKernel_integrable a b).
Proof.
  intro Hab.
  set (m := exp (- (a * a + b * b))).
  assert (0 < m) as Hm by apply exp_pos.
  apply Rlt_le_trans with (m * (b - a)); [apply Rmult_lt_0_compat; lra |].
  rewrite <- (RiemannInt_P15 (RiemannInt_P14 a b m)).
  apply RiemannInt_P19; [lra |].
  intros u Hu. unfold fct_cte, m, gaussKernel.
  destruct (Req_dec (u * u) (a * a + b * b)) as [E | N].
  - rewrite E. lra.
  - left. apply exp_increasing.
    pose proof (Rle_0_sqr a) as Ha. pose proof (Rle_0_sqr b) as Hb.
    unfold Rsqr in *.
    assert (u * u <= a * a + b * b)
      by (destruct (Rle_dec 0 u); nra).
    lra.
Qed.

Lemma erf_increasing (a b : R) : a < b -> erf a < erf b.
Proof.
  intro Hab. pose proof (erf_difference a b) as Hd.
  pose proof (integral_positive Hab) as Hp.
  pose proof sqrt_PI_bounds as [Hs1 Hs2].
  assert (0 < 2 / sqrt PI) as Hc by (apply Rdiv_lt_0_compat; lra).
  pose proof (Rmult_lt_0_compat _ _ Hc Hp). lra.
Qed.

Lemma erf_monotone (a b : R) : a <= b -> erf a <= erf b.
Proof.
  intros [L | E]; [left; apply erf_increasing; exact L | rewrite E; lra].
Qed.

Lemma gaussKernel_continuous (lo hi u : R) :
  lo <= u <= hi -> continuity_pt gaussKernel u.
Proof. intros _. unfold gaussKernel. reg. Qed.

Lemma erf_derivative (v : R) :
  derivable_pt_lim erf v (2 / sqrt PI * gaussKernel v).
Proof.
  assert (v - 1 <= v + 1) as hAB by lra.
  set (P := primitive hAB (FTC_P1 hAB (@gaussKernel_continuous (v - 1) (v + 1)))).
  assert (derivable_pt_lim P v (gaussKernel v)) as HP.
  { apply RiemannInt_P27. lra. }
  apply derivable_pt_lim_locally_ext
    with (f := fun u => 2 / sqrt PI
                        * (RiemannInt (gaussKernel_integrable 0 (v - 1)) + P u))
         (a := v - 1) (b := v + 1); [lra | |].
  - intros u Hu. unfold erf. f_equal.
    rewrite <- (integral_chasles 0 (v - 1) u). f_equal.
    unfold P, primitive.
    destruct (Rle_dec (v - 1) u) as [H1 | H1]; [| lra].
    destruct (Rle_dec u (v + 1)) as [H2 | H2]; [| lra].
    apply RiemannInt_P5.
  - apply (derivable_pt_lim_scal
             (fun u => RiemannInt (gaussKernel_integrable 0 (v - 1)) + P u)
             (2 / sqrt PI) v (gaussKernel v)).
    replace (gaussKernel v) with (0 + gaussKernel v) by ring.
    apply (derivable_pt_lim_plus
             (fct_cte (RiemannInt (gaussKernel_integrable 0 (v - 1)))) P).
    + apply derivable_pt_lim_const.
    + exact HP.
Qed.

Lemma gaussKernel_even (v : R) : gaussKernel (- v) = gaussKernel v.
Proof. unfold gaussKernel. f_equal. ring. Qed.

Lemma erf_reflected_derivative (v : R) :
  derivable_pt_lim (fun u => erf u + erf (- u)) v 0.
Proof.
  replace 0 with (2 / sqrt PI * gaussKernel v
                  + 2 / sqrt PI * gaussKernel (- v) * (- 1))
    by (rewrite gaussKernel_even; ring).
  apply (derivable_pt_lim_plus erf (fun u => erf (- u))).
  - apply erf_derivative.
  - apply (derivable_pt_lim_comp (fun u => - u) erf).
    + apply (derivable_pt_lim_opp id v 1), derivable_pt_lim_id.
    + apply erf_derivative.
Qed.

Lemma erf_odd (v : R) : erf (- v) = - erf v.
Proof.
  set (F := fun u => erf u + erf (- u)).
  assert (pr : derivable F).
  { intro u. exists 0. apply erf_reflected_derivative. }
  assert (forall u, derive_pt F u (pr u) = 0) as Hnull.
  { intro u. apply derive_pt_eq_0, erf_reflected_derivative. }
  pose proof (null_derivative_1 F pr Hnull v 0) as Hc.
  unfold F in Hc. rewrite Ropp_0, erf_0 in Hc. lra.
Qed.

Lemma affine_derivative (m k t : R) :
  derivable_pt_lim (fun u => (u - m) * k) t k.
Proof.
  intros eps Heps. exists (mkposreal 1 Rlt_0_1). intros h Hh _.
  replace (((t + h - m) * k - (t - m) * k) / h - k) with 0 by (field; exact Hh).
  rewrite Rabs_R0. exact Heps.
Qed.

Lemma sqrt_2_PI : sqrt 2 * sqrt PI = sqrt (2 * PI).
Proof. symmetry. apply sqrt_mult; [lra | pose proof PI_RGT_0; lra]. Qed.

(** The density is the derivative of the distribution function. *)
Lemma CDF_derivative (mu sd t : R) :
  0 < sd -> derivable_pt_lim (CDF mu sd) t (pdf mu sd t).
Proof.
  intro Hsd.
  assert (0 < sqrt 2) as H2 by (apply sqrt_lt_R0; lra).
  assert (sqrt 2 * sqrt 2 = 2) as H22 by (apply sqrt_def; lra).
  pose proof sqrt_PI_bounds as [Hp1 Hp2].
  set (k := / (sd * sqrt 2)).
  set (inner := fun u => (u - mu) * k).
  assert (derivable_pt_lim (fun u => erf (inner u)) t
            (2 / sqrt PI * gaussKernel (inner t) * k)) as Hcomp.
  { apply (derivable_pt_lim_comp inner erf).
    - apply affine_derivative.
    - apply erf_derivative. }
  apply derivable_pt_lim_ext
    with (f := fun u => 1 / 2 + 1 / 2 * erf (inner u)).
  { intro u. unfold CDF, stdNormalCDF, inner, k.
    replace ((u - mu) / sd / sqrt 2) with ((u - mu) * / (sd * sqrt 2))
      by (field; lra).
    lra. }
  replace (pdf mu sd t)
    with (0 + 1 / 2 * (2 / sqrt PI * gaussKernel (inner t) * k)).
  - apply (derivable_pt_lim_plus (fct_cte (1 / 2))
             (mult_real_fct (1 / 2) (fun u => erf (inner u)))).
    + apply derivable_pt_lim_const.
    + apply derivable_pt_lim_scal. exact Hcomp.
  - unfold pdf, gaussKernel, inner, k. rewrite <- sqrt_2_PI.
    replace (- ((t - mu) * / (sd * sqrt 2) * ((t - mu) * / (sd * sqrt 2))))
      with (- ((t - mu) * (t - mu)) / (2 * (sd * sd))).
    + field. lra.
    + rewrite <- H22 at 1. field. lra.
Qed.

Lemma pdf_continuous (mu sd lo hi t : R) :
  lo <= t <= hi -> continuity_pt (pdf mu sd) t.
Proof.
  intros _. unfold pdf.
  apply (continuity_pt_mult (fct_cte (1 / (sd * sqrt (2 * PI))))
           (fun u => exp (- ((u - mu) * (u - mu)) / (2 * (sd * sd))))).
  - apply continuity_pt_const. intros a b. reflexivity.
  - apply (continuity_pt_comp
             (fun u => - ((u - mu) * (u - mu)) / (2 * (sd * sd))) exp).
    + unfold Rdiv. reg.
    + apply derivable_continuous_pt, derivable_pt_exp.
Qed.

(** The integral of the density between two points is the difference of the
    distribution function. *)
Lemma pdf_integral (mu sd a b : R)
      (pr : Riemann_integrable (pdf mu sd) a b) :
  0 < sd -> a <= b -> RiemannInt pr = CDF mu sd b - CDF mu sd a.
Proof.
  intros Hsd Hab.
  pose proof (RiemannInt_P29 Hab (@pdf_continuous mu sd a b)) as HP.
  assert (antiderivative (pdf mu sd) (CDF mu sd) a b) as HG.
  { split; [| exact Hab]. intros u _.
    exists (exist _ (pdf mu sd u) (CDF_derivative mu u Hsd)). reflexivity. }
  destruct (antiderivative_Ucte _ _ _ _ _ HG HP) as [c Hc].
  rewrite (RiemannInt_P20 Hab (FTC_P1 Hab (@pdf_continuous mu sd a b)) pr).
  rewrite (Hc a), (Hc b) by lra. ring.
Qed.

End ErrorFunctionCalculus.

Section ShotForceMore.
Import SumCode Launcher.
Local Open Scope R_scope.

Lemma normalCDF_std (u : R) : normalCDF u = stdNormalCDF u.
Proof.
  unfold normalCDF, stdNormalCDF.
  replace 2.0 with 2 by lra. replace 1.0 with 1 by lra. lra.
Qed.

(** X1.  [normalCDF] is 0.5 at 0, non-decreasing, and symmetric:
    normalCDF (-u) = 1 - normalCDF u. *)
Theorem normalCDF_half_monotone_reflection :
  normalCDF 0 = 0.5
  /\ (forall a b : R, a <= b -> normalCDF a <= normalCDF b)
  /\ (forall u : R, normalCDF (- u) = 1 - normalCDF u).
Proof.
  assert (0 < sqrt 2) as H2 by (apply sqrt_lt_R0; lra).
  repeat split.
  - rewrite normalCDF_std. unfold stdNormalCDF.
    replace (0 / sqrt 2) with 0 by (field; lra). rewrite erf_0. lra.
  - intros a b Hab. rewrite !normalCDF_std. unfold stdNormalCDF.
    assert (a / sqrt 2 <= b / sqrt 2) as Hle.
    { apply Rmult_le_compat_r;
        [left; apply Rinv_0_lt_compat; exact H2 | exact Hab]. }
    pose proof (erf_monotone Hle). lra.
  - intro u. rewrite !normalCDF_std. unfold stdNormalCDF.
    replace (- u / sqrt 2) with (- (u / sqrt 2)) by (field; lra).
    rewrite erf_odd. lra.
Qed.

Lemma normalCDF_half_monotone_reflection_witness :
  normalCDF 0 <= normalCDF 1.
Proof.
  apply (proj1 (proj2 normalCDF_half_monotone_reflection) 0 1). lra.
Defined.

(** X2.  [calculateShotForce] is linear in each of transferEfficiency,
    ballMass and shooterRPM, at every time and for all other arguments: in
    particular it is 0 when one of them is 0. *)
Theorem shot_force_linear_in_drive
    (k te m rpm rb gr rt c cr ct t : R) :
  calculateShotForce (k * te) m rpm rb gr rt c cr ct t
    = k * calculateShotForce te m rpm rb gr rt c cr ct t
  /\ calculateShotForce te (k * m) rpm rb gr rt c cr ct t
    = k * calculateShotForce te m rpm rb gr rt c cr ct t
  /\ calculateShotForce te m (k * rpm) rb gr rt c cr ct t
    = k * calculateShotForce te m rpm rb gr rt c cr ct t.
Proof.
  unfold calculateShotForce.
  destruct (ltb t 0.0 || ltb ct t)%bool; [repeat split; lra |].
  cbv zeta.
  destruct (ltb _ 1e-12); [repeat split; lra |].
  repeat split; unfold Rdiv; ring.
Qed.

(** X3.  When compressionRatio * compression is at most SIGMA_MIN = 1e-6 the
    width is clamped, so [calculateShotForce] does not depend on the two
    compression arguments: zero compression is as good as any other value
    below the clamp. *)
Theorem shot_force_ignores_compression_below_clamp
    (te m rpm rb gr rt c cr c' cr' ct t : R) :
  cr * c <= 1e-6 -> cr' * c' <= 1e-6 ->
  calculateShotForce te m rpm rb gr rt c cr ct t
  = calculateShotForce te m rpm rb gr rt c' cr' ct t.
Proof.
  intros H1 H2. unfold calculateShotForce, fmax, SIGMA_MIN.
  rewrite (Rmax_right (cr * c)), (Rmax_right (cr' * c')) by assumption.
  reflexivity.
Qed.

Lemma shot_force_ignores_compression_below_clamp_witness :
  calculateShotForce 0.8 0.045 4000 0.05 1 0.05 0 0.5 0.02 0.01
  = calculateShotForce 0.8 0.045 4000 0.05 1 0.05 1e-6 1 0.02 0.01.
Proof.
  apply (@shot_force_ignores_compression_below_clamp
           0.8 0.045 4000 0.05 1 0.05 0 0.5 1e-6 1 0.02 0.01); lra.
Defined.

(** X4.  When contactTime is below 1e-12 * sigma (in particular when it is
    zero or negative) [calculateShotForce] returns 0 at every time: either
    the time is outside the window or the degenerate-denominator guard
    fires. *)
Theorem shot_force_zero_for_short_window (p : LauncherParameters) (t : R) :
  contactTime p < 1e-12 * sigma p -> computeShotForceMagnitude p t = 0.
Proof.
  intro Hshort. pose proof (sigma_pos p) as Hs.
  destruct (Rlt_dec t 0) as [Hneg | Hneg];
    [apply shotForce_outside; left; exact Hneg |].
  destruct (Rlt_dec (contactTime p) t) as [Hpast | Hpast];
    [apply shotForce_outside; right; exact Hpast |].
  assert (0 <= t <= contactTime p) as Hwin by lra.
  rewrite (shotForce_inside p Hwin).
  assert (0 <= contactTime p) as Hct by lra.
  pose proof (denominator_upper p Hct) as Hu.
  assert (contactTime p / sigma p < 1 / 1000000000000) as Hq.
  { apply Rmult_lt_reg_r with (sigma p); [exact Hs |].
    replace (contactTime p / sigma p * sigma p) with (contactTime p)
      by (field; lra).
    lra. }
  assert (ltb (denominator p) (1 / 1000000000000) = true) as Hguard
    by (apply ltb_lt; lra).
  rewrite Hguard. reflexivity.
Qed.

Lemma shot_force_zero_for_short_window_witness :
  computeShotForceMagnitude shortContact 0 = 0.
Proof.
  apply (@shot_force_zero_for_short_window shortContact 0).
  assert (Es : sigma shortContact = 1).
  { unfold sigma, shortContact; simpl. rewrite Rmax_left; lra. }
  rewrite Es. simpl. lra.
Defined.

(** The denominator is [erf] at contactTime / (2 sqrt 2 sigma). *)
Lemma denominator_is_erf (p : LauncherParameters) :
  denominator p = erf (contactTime p / (2 * sigma p) / sqrt 2).
Proof.
  pose proof (denominator_erf p) as H. cbv zeta in H.
  rewrite H, erf_odd. lra.
Qed.

Lemma denominator_sign (p : LauncherParameters) :
  (0 < contactTime p -> 0 < denominator p)
  /\ (contactTime p <= 0 -> denominator p <= 0).
Proof.
  pose proof (sigma_pos p) as Hs.
  assert (0 < sqrt 2) as H2 by (apply sqrt_lt_R0; lra).
  rewrite denominator_is_erf.
  set (v := contactTime p / (2 * sigma p) / sqrt 2).
  assert (Ev : v = contactTime p * / (2 * sigma p * sqrt 2))
    by (unfold v; field; lra).
  assert (0 < / (2 * sigma p * sqrt 2)) as Hk
    by (apply Rinv_0_lt_compat; nra).
  split; intro Hct.
  - apply Rle_lt_trans with (erf 0); [rewrite erf_0; lra |].
    apply erf_increasing. rewrite Ev. nra.
  - apply Rle_trans with (erf 0); [| rewrite erf_0; lra].
    apply erf_monotone. rewrite Ev. nra.
Qed.

Lemma denominator_large_window (p : LauncherParameters) :
  2e-11 * sigma p <= contactTime p -> 1e-12 <= denominator p.
Proof.
  intro Hlong. pose proof (sigma_pos p) as Hs.
  assert (0 < sqrt 2) as H2 by (apply sqrt_lt_R0; lra).
  assert (sqrt 2 * sqrt 2 = 2) as H22 by (apply sqrt_def; lra).
  assert (sqrt 2 <= 3 / 2) as H2u by nra.
  rewrite denominator_is_erf.
  set (v := contactTime p / (2 * sigma p) / sqrt 2).
  assert (1e-11 / sqrt 2 <= v) as Hv.
  { unfold v. apply Rmult_le_compat_r; [left; apply Rinv_0_lt_compat; lra |].
    apply Rmult_le_reg_r with (2 * sigma p); [lra |].
    replace (contactTime p / (2 * sigma p) * (2 * sigma p))
      with (contactTime p) by (field; lra).
    lra. }
  assert (6e-12 <= 1e-11 / sqrt 2) as Hlow.
  { apply Rmult_le_reg_r with (sqrt 2); [lra |].
    replace (1e-11 / sqrt 2 * sqrt 2) with 1e-11 by (field; lra). lra. }
  assert (1 / 3 <= exp (Ropp 1)) as He.
  { rewrite exp_Ropp. pose proof exp_le_3 as H3. pose proof (exp_pos 1) as H1.
    apply Rmult_le_reg_r with (exp 1); [lra |].
    replace (/ exp 1 * exp 1) with 1 by (field; lra). lra. }
  set (w := Rmin v 1).
  assert (6e-12 <= w <= 1) as [Hw0 Hw1].
  { unfold w. split; [apply Rmin_glb; lra | apply Rmin_r]. }
  assert (w <= v) as Hwv by apply Rmin_l.
  apply Rle_trans with (erf w); [| apply erf_monotone; exact Hwv].
  assert (0 <= w) as Hw by lra.
  apply Rle_trans with (w * gaussKernel w); [| apply erf_lower; exact Hw].
  assert (exp (Ropp 1) <= gaussKernel w) as Hg.
  { unfold gaussKernel.
    destruct (Req_dec (w * w) 1) as [E | N]; [rewrite E; lra |].
    left. apply exp_increasing. nra. }
  nra.
Qed.

(** X5.  When contactTime is at least 2e-11 * sigma the degenerate guard
    cannot fire: inside the window [calculateShotForce] is the truncated
    Gaussian (impulse / denominator) * density. *)
Theorem shot_force_guard_passes_for_long_window
    (p : LauncherParameters) (t : R) :
  2e-11 * sigma p <= contactTime p -> 0 <= t <= contactTime p ->
  computeShotForceMagnitude p t
  = impulse p / denominator p * pdf (t0 p) (sigma p) t.
Proof.
  intros Hlong Hwin. rewrite (shotForce_inside p Hwin).
  pose proof (denominator_large_window p Hlong) as Hden.
  assert (ltb (denominator p) (1 / 1000000000000) = false) as Hguard
    by (apply ltb_ge; lra).
  rewrite Hguard. reflexivity.
Qed.

Lemma shot_force_guard_passes_for_long_window_witness :
  computeShotForceMagnitude scenario 0.01
  = impulse scenario / denominator scenario
    * pdf (t0 scenario) (sigma scenario) 0.01.
Proof.
  apply (@shot_force_guard_passes_for_long_window scenario 0.01).
  - assert (Es : sigma scenario = 5 / 1000).
    { unfold sigma, scenario; simpl. rewrite Rmax_left; lra. }
    rewrite Es. simpl. lra.
  - simpl. lra.
Defined.

Lemma impulse_pos (p : LauncherParameters) :
  constraints p -> 0 < shooterRPM p -> 0 < impulse p.
Proof.
  unfold constraints. intros ([Hte _] & Hm & _ & Hrb & Hgr & Hrt & _) Hrpm.
  assert (0 < omega p) as Hw.
  { unfold omega. pose proof PI_RGT_0. apply Rdiv_lt_0_compat; [nra | lra]. }
  assert (0 < muzzleVelocity p) as Hv.
  { unfold muzzleVelocity.
    assert (0 < omega p * bottomWheelRadius p) by nra.
    assert (0 < omega p * gearRatio p) by nra.
    assert (0 < omega p * gearRatio p * topWheelRadius p) by nra.
    lra. }
  unfold impulse.
  assert (0 < transferEfficiency p * ballMass p) by nra.
  nra.
Qed.

(** X6.  For parameters within their constraints, a positive shooterRPM
    and a denominator of at least 1e-12, the value of [calculateShotForce]
    at the centre of the window, t0 = contactTime / 2, is
    impulse / (denominator * sigma * sqrt (2 pi)), and it is positive. *)
Theorem shot_force_peak_value (p : LauncherParameters) :
  constraints p -> 0 < shooterRPM p -> 1e-12 <= denominator p ->
  computeShotForceMagnitude p (t0 p)
  = impulse p / (denominator p * (sigma p * sqrt (2 * PI)))
  /\ 0 < computeShotForceMagnitude p (t0 p).
Proof.
  intros Hc Hrpm Hden.
  pose proof (impulse_pos Hc Hrpm) as Himp.
  pose proof (sigma_pos p) as Hs. pose proof sqrt_2PI_pos as Hq.
  destruct Hc as (_ & _ & _ & _ & _ & _ & _ & _ & Hct).
  assert (0 <= t0 p <= contactTime p) as Hwin by (unfold t0; lra).
  rewrite (shotForce_inside p Hwin).
  assert (ltb (denominator p) (1 / 1000000000000) = false) as Hguard
    by (apply ltb_ge; lra).
  rewrite Hguard. unfold truncatedGaussianForce, pdf.
  replace (- ((t0 p - t0 p) * (t0 p - t0 p)) / (2 * (sigma p * sigma p)))
    with 0 by (field; lra).
  rewrite exp_0.
  assert (0 < denominator p * (sigma p * sqrt (2 * PI))) as Hprod.
  { apply Rmult_lt_0_compat; [lra | apply Rmult_lt_0_compat; assumption]. }
  split.
  - field. repeat split; lra.
  - replace (impulse p / denominator p * (1 / (sigma p * sqrt (2 * PI)) * 1))
      with (impulse p / (denominator p * (sigma p * sqrt (2 * PI))))
      by (field; repeat split; lra).
    apply Rdiv_lt_0_compat; assumption.
Qed.

Lemma shot_force_peak_value_witness :
  computeShotForceMagnitude scenario (t0 scenario)
  = impulse scenario / (denominator scenario * (sigma scenario * sqrt (2 * PI)))
  /\ 0 < computeShotForceMagnitude scenario (t0 scenario).
Proof.
  apply (@shot_force_peak_value scenario).
  - exact scenario_constraints.
  - simpl. lra.
  - exact scenario_denominator.
Defined.

(** X7.  When the denominator is at least 1e-12, [calculateShotForce] is
    Riemann integrable in the time over [0, contactTime] and its integral
    is the impulse transferEfficiency * ballMass * muzzle velocity. *)
Theorem shot_force_integrates_to_impulse (p : LauncherParameters) :
  1e-12 <= denominator p ->
  inhabited
    (Riemann_integrable (computeShotForceMagnitude p) 0 (contactTime p))
  /\ forall pr :
       Riemann_integrable (computeShotForceMagnitude p) 0 (contactTime p),
       RiemannInt pr = impulse p.
Proof.
  intro Hden. pose proof (sigma_pos p) as Hs.
  assert (0 <= contactTime p) as Hct.
  { destruct (Rle_dec 0 (contactTime p)) as [H | H]; [exact H |].
    pose proof (proj2 (denominator_sign p)). lra. }
  assert (ltb (denominator p) (1 / 1000000000000) = false) as Hguard
    by (apply ltb_ge; lra).
  set (K := impulse p / denominator p).
  set (d := pdf (t0 p) (sigma p)).
  pose proof (continuity_implies_RiemannInt Hct
                (@pdf_continuous (t0 p) (sigma p) 0 (contactTime p))) as prd.
  fold d in prd.
  pose proof (RiemannInt_P14 0 (contactTime p) 0) as pr0.
  pose proof (RiemannInt_P10 K pr0 prd) as prh.
  assert (forall u, 0 <= u <= contactTime p ->
            fct_cte 0 u + K * d u = computeShotForceMagnitude p u) as Heq.
  { intros u Hu. rewrite (shotForce_inside p Hu), Hguard.
    unfold truncatedGaussianForce, fct_cte, K, d. ring. }
  assert (Riemann_integrable (computeShotForceMagnitude p) 0 (contactTime p))
    as prf.
  { apply Riemann_integrable_ext with (2 := prh).
    intros u Hu. apply Heq.
    rewrite Rmin_left, Rmax_right in Hu by exact Hct. exact Hu. }
  split; [constructor; exact prf |].
  intro pr.
  rewrite (RiemannInt_P18 pr prh Hct)
    by (intros u Hu; symmetry; apply Heq; lra).
  rewrite (RiemannInt_P13 pr0 prd prh), (RiemannInt_P15 pr0).
  unfold d. rewrite (pdf_integral prd Hs Hct).
  fold (denominator p). unfold K. field. lra.
Qed.

Lemma shot_force_integrates_to_impulse_witness :
  inhabited
    (Riemann_integrable (computeShotForceMagnitude scenario) 0
       (contactTime scenario))
  /\ forall pr :
       Riemann_integrable (computeShotForceMagnitude scenario) 0
         (contactTime scenario),
       RiemannInt pr = impulse scenario.
Proof.
  apply (@shot_force_integrates_to_impulse scenario).
  exact scenario_denominator.
Defined.

End ShotForceMore.

(** * More on [main.c] *)

Section FrameMore.
Import Arith Main Steps.
Context {T : Type} `{DoubleOps T}.

(** X8.  [updateForces] and [updateAcceleration] are idempotent,
    [updateDragForce] and [updateMagnusForce] commute, and an earlier
    [updateAcceleration] does not change what a later one computes. *)
Theorem force_updates_idempotent_and_commute (g : Globals T) :
  updateForces (updateForces g) = updateForces g
  /\ updateAcceleration (updateAcceleration g) = updateAcceleration g
  /\ updateMagnusForce (updateDragForce g) = updateDragForce (updateMagnusForce g)
  /\ updateAcceleration (updateForces (updateAcceleration g))
     = updateAcceleration (updateForces g).
Proof. destruct g. repeat split. Qed.

(** X9.  A whole step (forces, acceleration, velocity, position) leaves the
    twelve configuration globals unchanged: gravityForce, ballArea,
    spinVector, timeStep, turretAngle, shooterRPM, hoodAngle, ballMass,
    ballRadius, airDensity, dragCoefficient, magnusCoefficient. *)
Theorem full_step_preserves_configuration (g : Globals T) :
  let g' := fullStep g in
  gravityForce g' = gravityForce g /\ ballArea g' = ballArea g
  /\ spinVector g' = spinVector g /\ timeStep g' = timeStep g
  /\ turretAngle g' = turretAngle g /\ shooterRPM g' = shooterRPM g
  /\ hoodAngle g' = hoodAngle g /\ ballMass g' = ballMass g
  /\ ballRadius g' = ballRadius g /\ airDensity g' = airDensity g
  /\ dragCoefficient g' = dragCoefficient g
  /\ magnusCoefficient g' = magnusCoefficient g.
Proof. destruct g. cbn. repeat split. Qed.

(** X10.  [updateForces] always leaves the shot force at zero, so a shot
     force stored beforehand has no effect on the step. *)
Theorem shot_force_is_always_reset (g : Globals T) (f : Vector3d T) :
  shotForce (updateForces g) = zeroVector
  /\ shotForce (fullStep g) = zeroVector
  /\ fullStep (set_shotForce f g) = fullStep g.
Proof. destruct g. repeat split. Qed.

End FrameMore.

Section RealReadingMore.
Import Arith Main States Steps.
Local Open Scope R_scope.

Lemma magnitude_sqr (v : Vector3d R) :
  vectorMagnitude v * vectorMagnitude v = vectorDot v v.
Proof.
  destruct v as [a b c]. unfold vectorMagnitude, vectorDot. cbn.
  apply sqrt_def.
  pose proof (Rle_0_sqr a). pose proof (Rle_0_sqr b). pose proof (Rle_0_sqr c).
  unfold Rsqr in *. lra.
Qed.

Lemma magnitude_nonneg (v : Vector3d R) : 0 <= vectorMagnitude v.
Proof. unfold vectorMagnitude. cbn. apply sqrt_pos. Qed.

(** X11.  [vectorCross] is anti-commutative, vanishes on a vector with itself
     and with any multiple of itself, is orthogonal to both arguments, and
     satisfies Lagrange's identity |a x b|^2 + (a.b)^2 = |a|^2 |b|^2. *)
Theorem cross_product_laws (a b : Vector3d R) (k : R) :
  vectorCross a b = scalarMultiply (vectorCross b a) (- 1)
  /\ vectorCross a a = zeroR
  /\ vectorCross a (scalarMultiply a k) = zeroR
  /\ vectorDot (vectorCross a b) a = 0
  /\ vectorDot (vectorCross a b) b = 0
  /\ vectorDot (vectorCross a b) (vectorCross a b)
       + vectorDot a b * vectorDot a b
     = vectorDot a a * vectorDot b b.
Proof.
  destruct a as [ax ay az], b as [bx byy bz].
  unfold vectorCross, vectorDot, scalarMultiply, zeroR. cbn.
  repeat split; try (apply vector_ext; cbn); ring.
Qed.

(** X12.  [vectorMagnitude] is non-negative, its square is the dot product
     of the vector with itself, it is 0 exactly for the zero vector, and
     [scalarMultiply] by k scales it by |k|. *)
Theorem magnitude_laws (v : Vector3d R) (k : R) :
  0 <= vectorMagnitude v
  /\ vectorMagnitude v * vectorMagnitude v = vectorDot v v
  /\ (vectorMagnitude v = 0 <-> v = zeroR)
  /\ vectorMagnitude (scalarMultiply v k) = Rabs k * vectorMagnitude v.
Proof.
  split; [apply magnitude_nonneg |].
  split; [apply magnitude_sqr |].
  split.
  - split.
    + intro H0. pose proof (magnitude_sqr v) as Hs. rewrite H0 in Hs.
      destruct v as [a b c]. unfold vectorDot in Hs. cbn in Hs.
      pose proof (Rle_0_sqr a). pose proof (Rle_0_sqr b).
      pose proof (Rle_0_sqr c). unfold Rsqr in *.
      assert (a * a = 0) by lra. assert (b * b = 0) by lra.
      assert (c * c = 0) by lra.
      unfold zeroR. f_equal; apply Rsqr_0_uniq; assumption.
    + intros ->. unfold vectorMagnitude, zeroR. cbn.
      replace (0 * 0 + 0 * 0 + 0 * 0) with 0 by ring. apply sqrt_0.
  - destruct v as [a b c]. unfold vectorMagnitude, scalarMultiply. cbn.
    replace (a * k * (a * k) + b * k * (b * k) + c * k * (c * k))
      with (k * k * (a * a + b * b + c * c)) by ring.
    rewrite sqrt_mult_alt by apply Rle_0_sqr.
    f_equal. apply sqrt_Rsqr_abs.
Qed.

Lemma magnitude_laws_witness :
  vectorMagnitude zeroR = 0.
Proof.
  apply (proj2 (proj1 (proj2 (proj2 (@magnitude_laws zeroR 1))))).
  reflexivity.
Defined.

(** X13.  [add], [scalarMultiply] and [vectorDot] obey the vector-space
     laws: [add] is commutative and associative with the zero vector as
     unit, [scalarMultiply] distributes over [add] and composes by product,
     and [vectorDot] is symmetric and linear in its first argument. *)
Theorem vector_space_laws (a b c : Vector3d R) (k l : R) :
  add a b = add b a
  /\ add (add a b) c = add a (add b c)
  /\ add a zeroR = a
  /\ scalarMultiply (add a b) k = add (scalarMultiply a k) (scalarMultiply b k)
  /\ scalarMultiply (scalarMultiply a k) l = scalarMultiply a (k * l)
  /\ scalarMultiply a 1 = a
  /\ vectorDot a b = vectorDot b a
  /\ vectorDot (add a b) c = vectorDot a c + vectorDot b c
  /\ vectorDot (scalarMultiply a k) b = k * vectorDot a b.
Proof.
  destruct a as [ax ay az], b as [bx byy bz], c as [cx cy cz].
  unfold add, scalarMultiply, vectorDot, zeroR. cbn.
  repeat split; try (apply vector_ext; cbn); ring.
Qed.

(** X14.  [perpendicular2D] is a quarter turn in the plane: its result is
     orthogonal to the argument, has z = 0 and the norm of the argument's
     planar part, and applying it twice negates x and y. *)
Theorem perpendicular2D_quarter_turn (v : Vector3d R) :
  vectorDot (perpendicular2D v) v = 0
  /\ z (perpendicular2D v) = 0
  /\ perpendicular2D (perpendicular2D v) = mkVector3d (- x v) (- y v) 0
  /\ vectorMagnitude (perpendicular2D v)
     = vectorMagnitude (mkVector3d (x v) (y v) 0).
Proof.
  destruct v as [a b c].
  unfold perpendicular2D, createVector, vectorDot, vectorMagnitude. cbn.
  repeat split; try lra.
  - f_equal; lra.
  - f_equal. lra.
Qed.

(** X15.  [angleToVector2D] returns a unit vector with z = 0 for every
     angle, (1, 0, 0) at angle 0, and its [perpendicular2D] is a unit vector
     orthogonal to it. *)
Theorem angleToVector2D_unit (angleDeg : R) :
  vectorMagnitude (angleToVector2D angleDeg) = 1
  /\ z (angleToVector2D angleDeg) = 0
  /\ vectorMagnitude (perpendicular2D (angleToVector2D angleDeg)) = 1
  /\ vectorDot (perpendicular2D (angleToVector2D angleDeg))
               (angleToVector2D angleDeg) = 0
  /\ angleToVector2D 0 = mkVector3d 1 0 0.
Proof.
  unfold angleToVector2D, perpendicular2D, createVector, vectorMagnitude,
    vectorDot. cbn.
  set (r := angleDeg * (3.14159 / 180.0)).
  pose proof (sin2_cos2 r) as Hu. unfold Rsqr in Hu.
  repeat split; try lra.
  - replace (cos r * cos r + sin r * sin r + 0.0 * 0.0) with 1 by lra.
    apply sqrt_1.
  - replace (- sin r * - sin r + cos r * cos r + 0.0 * 0.0) with 1 by lra.
    apply sqrt_1.
  - replace (0 * (3.14159 / 180.0)) with 0 by lra.
    rewrite cos_0, sin_0. f_equal. lra.
Qed.

(** X16.  With ballArea = 0 (the value the global keeps, since [main] only
     sets a local of that name), a moving ball and a non-zero mass,
     [updateForces] gives zero drag and zero Magnus force and
     [updateAcceleration] gives gravityForce / ballMass. *)
Theorem no_aerodynamics_without_ball_area (g : Globals R) :
  ballArea g = 0 -> vectorMagnitude (velocity g) <> 0 -> ballMass g <> 0 ->
  let g' := updateAcceleration (updateForces g) in
  dragForce g' = zeroR /\ magnusForce g' = zeroR
  /\ x (acceleration g') = x (gravityForce g) / ballMass g
  /\ y (acceleration g') = y (gravityForce g) / ballMass g
  /\ z (acceleration g') = z (gravityForce g) / ballMass g.
Proof.
  destruct g as [gf mf df sf pos vel acc area spin dt ta rpm ha m rad rho cd cm].
  destruct gf as [gx gy gz], vel as [vx vy vz], spin as [sx sy sz].
  cbn. intros -> Hs Hm.
  repeat split; try (apply vector_ext; cbn); cbv [Q2R Qnum Qden];
    first [ring | field; repeat split; assumption].
Qed.

Lemma no_aerodynamics_without_ball_area_witness :
  let g' :=
    updateAcceleration
      (updateForces (set_velocity (mkVector3d 1 0 0) initial)) in
  dragForce g' = zeroR /\ magnusForce g' = zeroR
  /\ x (acceleration g') = 0 / 0.045
  /\ y (acceleration g') = 0 / 0.045
  /\ z (acceleration g') = - 9.81 / 0.045.
Proof.
  pose proof (@no_aerodynamics_without_ball_area
                (set_velocity (mkVector3d 1 0 0) initial)) as H.
  cbn in H.
  replace (1 * 1 + 0 * 0 + 0 * 0) with 1 in H by ring.
  rewrite sqrt_1 in H. cbn.
  replace (1 * 1 + 0 * 0 + 0 * 0) with 1 by ring. rewrite sqrt_1.
  destruct H as (H1 & H2 & H3 & H4 & H5); try lra.
  repeat split; try assumption; lra.
Defined.

Lemma integrationStep_sameSetup (g : Globals R) :
  sameSetup g (integrationStep g).
Proof. destruct g. unfold sameSetup. cbn. repeat split. Qed.

Lemma integrationStep_kinematics (g h : Globals R) :
  sameSetup g h ->
  velocity (integrationStep h)
    = add (velocity h)
          (scalarMultiply (acceleration (updateAcceleration g)) (timeStep g))
  /\ position (integrationStep h)
     = add (position h)
           (scalarMultiply (velocity (integrationStep h)) (timeStep g)).
Proof.
  destruct g, h. unfold sameSetup. cbn.
  intros (-> & -> & -> & -> & -> & ->). split; reflexivity.
Qed.

Lemma iterated_steps (g : Globals R) (n : nat) :
  let a := acceleration (updateAcceleration g) in
  let dt := timeStep g in
  let gn := Nat.iter n integrationStep g in
  sameSetup g gn
  /\ velocity gn = add (velocity g) (scalarMultiply a (INR n * dt))
  /\ position gn
     = add (add (position g) (scalarMultiply (velocity g) (INR n * dt)))
           (scalarMultiply a (INR n * (INR n + 1) / 2 * (dt * dt))).
Proof.
  cbv zeta. induction n as [| n IH].
  - split; [destruct g; unfold sameSetup; cbn; repeat split |].
    destruct g as [gf mf df sf [px py pz] [vx vy vz] acc ? ? dt ? ? ? m ? ? ? ?].
    cbn. split; apply vector_ext; cbn; unfold Rdiv; ring.
  - destruct IH as (Hs & Hv & Hp).
    change (Nat.iter (S n) integrationStep g)
      with (integrationStep (Nat.iter n integrationStep g)).
    set (gn := Nat.iter n integrationStep g) in *.
    destruct (integrationStep_kinematics Hs) as [Hv' Hp'].
    split.
    { pose proof (integrationStep_sameSetup gn) as Hn.
      unfold sameSetup in *. intuition congruence. }
    rewrite Hp', Hv', Hp, Hv. rewrite S_INR.
    set (a := acceleration (updateAcceleration g)).
    destruct a as [ax ay az], (position g) as [px py pz],
      (velocity g) as [vx vy vz].
    cbn. split; apply vector_ext; cbn; field.
Qed.

(** X17.  With the stored forces kept, n repetitions of
     [updateAcceleration], [updateVelocity], [updatePosition] give velocity
     v + n dt a and position p + n dt v + n (n + 1) / 2 dt^2 a, where a is
     the acceleration [updateAcceleration] computes (ballMass non-zero). *)
Theorem constant_force_trajectory (g : Globals R) (n : nat) :
  ballMass g <> 0 ->
  let a := acceleration (updateAcceleration g) in
  let dt := timeStep g in
  let gn := Nat.iter n integrationStep g in
  velocity gn = add (velocity g) (scalarMultiply a (INR n * dt))
  /\ position gn
     = add (add (position g) (scalarMultiply (velocity g) (INR n * dt)))
           (scalarMultiply a (INR n * (INR n + 1) / 2 * (dt * dt))).
Proof. intros _. exact (proj2 (iterated_steps g n)). Qed.

Lemma constant_force_trajectory_witness :
  let gn := Nat.iter 100 integrationStep initial in
  z (velocity gn) = - 218 /\ z (position gn) = - 110.09.
Proof.
  pose proof (@constant_force_trajectory initial 100) as H.
  cbv zeta in H. destruct H as [Hv Hp]; [cbn; lra |].
  cbv zeta. rewrite Hv, Hp. cbn - [INR].
  replace (INR 100) with 100 by (simpl; lra).
  split; lra.
Defined.

End RealReadingMore.

Section RealReadingDrag.
Import Arith Main States Steps.
Local Open Scope R_scope.

Lemma dot_scalarMultiply_l (a b : Vector3d R) (k : R) :
  vectorDot (scalarMultiply a k) b = k * vectorDot a b.
Proof. destruct a, b. unfold vectorDot, scalarMultiply. cbn. ring. Qed.

(** X18.  For a moving ball and non-negative airDensity, dragCoefficient
     and ballArea, the drag force is the velocity scaled by
     -(dragMagnitude / speed), its norm is dragMagnitude, and its dot
     product with the velocity is -(dragMagnitude * speed) <= 0. *)
Theorem drag_opposes_motion (g : Globals R) :
  let speed := vectorMagnitude (velocity g) in
  let dragMagnitude :=
    1 / 2 * airDensity g * (speed * speed) * dragCoefficient g * ballArea g in
  let f := dragForce (updateDragForce g) in
  speed <> 0 -> 0 <= airDensity g -> 0 <= dragCoefficient g ->
  0 <= ballArea g ->
  f = scalarMultiply (velocity g) (- (dragMagnitude / speed))
  /\ vectorMagnitude f = dragMagnitude
  /\ vectorDot f (velocity g) = - (dragMagnitude * speed)
  /\ vectorDot f (velocity g) <= 0.
Proof.
  cbv zeta. intros Hs Hrho Hcd Harea.
  pose proof (drag_force_moving g) as Hm. cbv zeta in Hm.
  destruct (Hm Hs) as [Hf Hn]. clear Hm.
  pose proof (magnitude_nonneg (velocity g)) as Hsp.
  pose proof (magnitude_sqr (velocity g)) as Hsq.
  set (s := vectorMagnitude (velocity g)) in *.
  set (k := 1 / 2 * airDensity g * (s * s) * dragCoefficient g * ballArea g)
    in *.
  assert (0 <= k) as Hk.
  { unfold k. assert (0 <= s * s) by nra.
    assert (0 <= 1 / 2 * airDensity g * (s * s)) by nra.
    assert (0 <= 1 / 2 * airDensity g * (s * s) * dragCoefficient g) by nra.
    nra. }
  assert (vectorDot (dragForce (updateDragForce g)) (velocity g)
          = - (k * s)) as Hdot.
  { rewrite Hf, dot_scalarMultiply_l, <- Hsq. field. exact Hs. }
  repeat split.
  - exact Hf.
  - apply Hn. exact Hk.
  - exact Hdot.
  - rewrite Hdot. nra.
Qed.

Lemma drag_opposes_motion_witness :
  let g := set_velocity (mkVector3d 3 0 4) (initial (T := R)) in
  vectorDot (dragForce (updateDragForce g)) (velocity g) <= 0.
Proof.
  cbv zeta.
  apply (@drag_opposes_motion (set_velocity (mkVector3d 3 0 4) initial)).
  - cbn. replace (3 * 3 + 0 * 0 + 4 * 4) with (5 * 5) by ring.
    rewrite sqrt_square; lra.
  - cbn. lra.
  - cbn. lra.
  - cbn. lra.
Defined.

End RealReadingDrag.

Section Binary64More.
Import Arith Main States Steps.

Lemma is_nan_Prim2SF (f : float) : is_nan f = true -> Prim2SF f = S754_nan.
Proof. intro H. unfold Prim2SF. rewrite H. reflexivity. Qed.

Lemma nan_add_l (a b : float) :
  is_nan a = true -> is_nan (PrimFloat.add a b) = true.
Proof.
  intro Ha. apply Prim2SF_nan_is_nan. rewrite add_spec, (is_nan_Prim2SF a Ha).
  reflexivity.
Qed.

Lemma nan_add_r (a b : float) :
  is_nan b = true -> is_nan (PrimFloat.add a b) = true.
Proof.
  intro Hb. apply Prim2SF_nan_is_nan. rewrite add_spec, (is_nan_Prim2SF b Hb).
  destruct (Prim2SF a) as [| | |]; reflexivity.
Qed.

Lemma nan_mul_l (a b : float) :
  is_nan a = true -> is_nan (PrimFloat.mul a b) = true.
Proof.
  intro Ha. apply Prim2SF_nan_is_nan. rewrite mul_spec, (is_nan_Prim2SF a Ha).
  reflexivity.
Qed.

Ltac nan_search :=
  solve [ assumption
        | apply nan_mul_l; nan_search
        | apply nan_add_l; nan_search
        | apply nan_add_r; nan_search ].

(** X19.  In binary64, a whole step from any state whose velocity is zero
     leaves NaN in every component of acceleration, velocity and position,
     whatever the other globals hold. *)
Theorem full_step_from_rest_is_nan (g : Globals float) :
  velocity g = mkVector3d 0%float 0%float 0%float ->
  let g' := fullStep g in
  (is_nan (x (acceleration g')) = true /\ is_nan (y (acceleration g')) = true
   /\ is_nan (z (acceleration g')) = true)
  /\ (is_nan (x (velocity g')) = true /\ is_nan (y (velocity g')) = true
      /\ is_nan (z (velocity g')) = true)
  /\ (is_nan (x (position g')) = true /\ is_nan (y (position g')) = true
      /\ is_nan (z (position g')) = true).
Proof.
  intro Hv. pose proof (drag_force_at_rest_any_globals g Hv) as Hd.
  cbv zeta in Hd. destruct Hd as (Hx & Hy & Hz).
  destruct g as [gf mf df sf pos vel acc area spin dt ta rpm ha m rad rho cd cm].
  unfold fullStep, integrationStep, updateForces, updateShotForce,
    updateMagnusForce, updateAcceleration, updateVelocity, updatePosition.
  cbn -[to_float32 PrimFloat.mul PrimFloat.div PrimFloat.sqrt PrimFloat.add
        PrimFloat.sub Q2F] in *.
  repeat split; nan_search.
Qed.

Lemma full_step_from_rest_is_nan_witness :
  let g' := fullStep atRest in
  (is_nan (x (acceleration g')) = true /\ is_nan (y (acceleration g')) = true
   /\ is_nan (z (acceleration g')) = true)
  /\ (is_nan (x (velocity g')) = true /\ is_nan (y (velocity g')) = true
      /\ is_nan (z (velocity g')) = true)
  /\ (is_nan (x (position g')) = true /\ is_nan (y (position g')) = true
      /\ is_nan (z (position g')) = true).
Proof.
  apply (@full_step_from_rest_is_nan atRest). vm_compute. reflexivity.
Defined.

End Binary64More.
